(** * CuteJson: a shallow embedding of [cutejson::Parse] and its properties

    The development follows [src/cutejson.cpp]:
    - [JsonObject] is the variant of line 25;
    - [TryParseNum], [UnescapedChar] and [Parse] are the functions of
      lines 50, 59 and 82;
    - the standard-library routines the parser calls ([std::from_chars],
      [std::regex_search] on the numeral pattern,
      [string_view::find_first_not_of], [unordered_map::try_emplace]) are
      modelled next to their call sites.

    A [std::string_view] is a [list ascii]; a [std::string] is a [string].
    Indexing a view at or past its size is undefined behaviour in C++ and is
    an explicit outcome here ([OutOfBounds]). *)

From Stdlib Require Import ZArith Ascii String Lia.
From stdpp Require Import base option list strings gmap.

Set Warnings "-register-all".

Open Scope Z_scope.
Open Scope nat_scope.

(** ** Characters *)

Module Chars.
Definition NUL : ascii := "000"%char.
Definition BEL : ascii := "007"%char.
Definition BS : ascii := "008"%char.
Definition TAB : ascii := "009"%char.
Definition LF : ascii := "010"%char.
Definition VT : ascii := "011"%char.
Definition FF : ascii := "012"%char.
Definition CR : ascii := "013"%char.
Definition SP : ascii := " "%char.
Definition DQUOTE : ascii := "034"%char.
Definition BACKSLASH : ascii := "092"%char.
End Chars.
Import Chars.

(** [std::string_view]: the characters of the slice, in order. *)
Abbreviation string_view := (list ascii) (only parsing).

(** A C++ string literal, written with a single quote wherever the C++
    text has a double quote: [lit "'a'"] is the three characters
    double quote, a, double quote. *)
Definition lit (s : string) : string_view :=
  (λ c, if (c =? "'")%char then DQUOTE else c) <$> list_ascii_of_string s.

(** ['0' <= c && c <= '9'], line 95; also the class [[0-9]] of the pattern. *)
Definition is_digit (c : ascii) : bool :=
  (N_of_ascii "0" <=? N_of_ascii c)%N && (N_of_ascii c <=? N_of_ascii "9")%N.

Definition is_sign (c : ascii) : bool := (c =? "+")%char || (c =? "-")%char.

Definition is_exp_mark (c : ascii) : bool := (c =? "e")%char || (c =? "E")%char.

(** Length of the longest prefix of [s] whose characters all satisfy [p]. *)
Fixpoint span_len (p : ascii → bool) (s : string_view) : nat :=
  match s with
  | c :: s' => if p c then S (span_len p s') else 0
  | [] => 0
  end.

(** ** Outcomes

    [Parse] returns a pair; the two other outcomes are the undefined
    behaviour of an out-of-range [operator[]] and the exhaustion of the
    recursion budget of the model (shown below never to happen). *)

Inductive outcome (A : Type) : Type :=
  | Ok (a : A)
  | OutOfBounds
  | OutOfFuel.
Arguments Ok {A} a.
Arguments OutOfBounds {A}.
Arguments OutOfFuel {A}.

#[global] Instance outcome_ret : MRet outcome := λ A a, Ok a.
#[global] Instance outcome_bind : MBind outcome := λ A B f m,
  match m with
  | Ok a => f a
  | OutOfBounds => OutOfBounds
  | OutOfFuel => OutOfFuel
  end.

(** [json[i]]: defined only for [i < json.size()]. *)
Definition at_ (json : string_view) (i : nat) : outcome ascii :=
  match json !! i with
  | Some c => Ok c
  | None => OutOfBounds
  end.

(** [json.substr(pos)]: the suffix from [pos] on.  It throws when [pos]
    exceeds the size, which no call of [Parse] does: each call follows a
    successful read of [json[pos]] or of [json[pos - 1]]. *)
Definition substr (json : string_view) (pos : nat) : string_view := drop pos json.

(** ** The value model (lines 19-46) *)

(** The payload of the [double] alternative: the binary64 number
    [(-1)^neg * mant * 2^exp2], in the one form that has
    [2^52 ≤ mant < 2^53] and [-1074 ≤ exp2 ≤ 971] for a normal number, and
    [mant < 2^52] and [exp2 = -1074] for a subnormal number and for zero. *)
Record double : Type := Binary64 { dbl_neg : bool; dbl_mant : Z; dbl_exp2 : Z }.

Inductive JsonObject : Type :=
  | JNull                                  (* std::nullptr_t *)
  | JBool (b : bool)                       (* bool *)
  | JInt (n : Z)                           (* int *)
  | JDouble (d : double)                   (* double *)
  | JString (s : string)                   (* std::string *)
  | JList (l : list JsonObject)            (* JsonList *)
  | JDict (m : gmap string JsonObject).    (* JsonDict *)

Abbreviation JsonList := (list JsonObject) (only parsing).
Abbreviation JsonDict := (gmap string JsonObject) (only parsing).

(** [res.try_emplace(key, val)]: inserts only when [key] is absent. *)
Definition try_emplace (key : string) (val : JsonObject) (res : JsonDict) : JsonDict :=
  match res !! key with
  | Some _ => res
  | None => <[key := val]> res
  end.

(** ** [std::from_chars] and [TryParseNum] (lines 49-57) *)

Inductive errc : Type := errc_ok | invalid_argument | result_out_of_range.

(** What [from_chars] reports: the error code, the offset of [ptr] from the
    start of the text, and the value written (none on error). *)
Record from_chars_result (T : Type) : Type :=
  FromCharsResult { ec : errc; ptr : nat; value : option T }.
Arguments FromCharsResult {T} ec ptr value.
Arguments ec {T} _.
Arguments ptr {T} _.
Arguments value {T} _.

Class FromChars (T : Type) : Type := from_chars : string_view → from_chars_result T.

(** The number a run of decimal digits denotes. *)
Definition digits_value (ds : string_view) : Z :=
  foldl (λ acc c, 10 * acc + (Z.of_N (N_of_ascii c) - 48))%Z 0%Z ds.

Definition INT_MIN : Z := (- 2 ^ 31)%Z.
Definition INT_MAX : Z := (2 ^ 31 - 1)%Z.

(** [std::from_chars] for [int] (32 bits), base 10: an optional minus sign
    (no plus sign, no white space) followed by digits; [invalid_argument]
    without a digit, [result_out_of_range] when the number is not an
    [int]. *)
#[global] Instance from_chars_int : FromChars Z := λ str,
  let neg := match str with c :: _ => (c =? "-")%char | [] => false end in
  let sg := if neg then 1 else 0 in
  let nd := span_len is_digit (drop sg str) in
  if nd =? 0 then FromCharsResult invalid_argument 0 None
  else
    let m := digits_value (take nd (drop sg str)) in
    let v := if neg then (- m)%Z else m in
    if (INT_MIN <=? v)%Z && (v <=? INT_MAX)%Z
    then FromCharsResult errc_ok (sg + nd) (Some v)
    else FromCharsResult result_out_of_range (sg + nd) None.

(** Whether a decimal is in the range of [double]: zero, or of a magnitude
    that rounds to a finite nonzero binary64, that is below the midpoint
    between [DBL_MAX] and [2^1024] and above half of the least subnormal
    [2^-1074] (what underflows to zero is reported out of range, as
    libstdc++ does). *)
Definition double_in_range (mant exp10 : Z) : bool :=
  if (mant =? 0)%Z then true
  else if (0 <=? exp10)%Z
  then (mant * 10 ^ exp10 <? 2 ^ 1024 - 2 ^ 970)%Z
  else (mant <? (2 ^ 1024 - 2 ^ 970) * 10 ^ (- exp10))%Z
       && (10 ^ (- exp10) <? mant * 2 ^ 1075)%Z.

(** The binary64 nearest to the fraction [num / den] (both positive, or
    [num] zero), ties to the even mantissa, as (mantissa, exponent of 2):
    [k] is the integer part of the binary logarithm of the fraction, the
    exponent is [k - 52] or the least one, and the mantissa is the quotient
    by that power of 2, rounded; a mantissa rounded up to [2^53] moves to
    the next exponent. *)
Definition round_binary64 (num den : Z) : Z * Z :=
  if (num =? 0)%Z then (0, -1074)%Z
  else
    let L := (Z.log2 num - Z.log2 den)%Z in
    let ge := if (0 <=? L)%Z then (den * 2 ^ L <=? num)%Z
              else (den <=? num * 2 ^ (- L))%Z in
    let k := if ge then L else (L - 1)%Z in
    let e := Z.max (k - 52) (-1074) in
    let N := (num * 2 ^ Z.max (- e) 0)%Z in
    let D := (den * 2 ^ Z.max e 0)%Z in
    let q := (N / D)%Z in
    let r := (N mod D)%Z in
    let m := if (D <? 2 * r)%Z || ((D =? 2 * r)%Z && Z.odd q) then (q + 1)%Z else q in
    if (m =? 2 ^ 53)%Z then (2 ^ 52, e + 1)%Z else (m, e).

(** The [double] that [std::from_chars] stores for the decimal
    [(-1)^neg * mant * 10^exp10]: the nearest one. *)
Definition double_of_decimal (neg : bool) (mant exp10 : Z) : double :=
  let r := if (0 <=? exp10)%Z then round_binary64 (mant * 10 ^ exp10) 1
           else round_binary64 mant (10 ^ (- exp10)) in
  Binary64 neg r.1 r.2.

(** [std::from_chars] for [double], general format, on decimal text: an
    optional minus sign (no plus sign), digits with an optional point, at
    least one digit in all, and an exponent when it is complete.  The
    spellings of infinity and NaN and the hexadecimal format are left out:
    the only caller passes a match of the numeral pattern. *)
#[global] Instance from_chars_double : FromChars double := λ str,
  let neg := match str with c :: _ => (c =? "-")%char | [] => false end in
  let sg := if neg then 1 else 0 in
  let s1 := drop sg str in
  let ni := span_len is_digit s1 in
  let s2 := drop ni s1 in
  let nf := match s2 with
            | c :: r => if (c =? ".")%char then span_len is_digit r else 0
            | [] => 0
            end in
  let pt := match s2 with
            | c :: _ => if (c =? ".")%char then 1 else 0
            | [] => 0
            end in
  if (ni =? 0) && (nf =? 0) then FromCharsResult invalid_argument 0 None
  else
    let s3 := drop (pt + nf) s2 in
    let esg := match s3 with
               | _ :: c :: _ => if is_sign c then 1 else 0
               | _ => 0
               end in
    let ne := match s3 with
              | c :: r => if is_exp_mark c then span_len is_digit (drop esg r) else 0
              | [] => 0
              end in
    let ex := if ne =? 0 then 0%Z
              else
                let e := digits_value (take ne (drop (1 + esg) s3)) in
                match s3 with
                | _ :: c :: _ => if (c =? "-")%char then (- e)%Z else e
                | _ => e
                end in
    let p := sg + ni + pt + nf + (if ne =? 0 then 0 else 1 + esg + ne) in
    let mant := digits_value (take ni s1 ++ take nf (drop (ni + pt) s1)) in
    let exp10 := (ex - Z.of_nat nf)%Z in
    if double_in_range mant exp10
    then FromCharsResult errc_ok p (Some (double_of_decimal neg mant exp10))
    else FromCharsResult result_out_of_range p None.

(** [TryParseNum<T>]: the value when [from_chars] succeeds and has read the
    whole text. *)
Definition TryParseNum (T : Type) `{FromChars T} (str : string_view) : option T :=
  let res := from_chars str in
  match ec res with
  | errc_ok => if ptr res =? length str then value res else None
  | _ => None
  end.

(** ** [UnescapedChar] (lines 59-80) *)

Definition UnescapedChar (c : ascii) : ascii :=
  if (c =? "n")%char then LF
  else if (c =? "r")%char then CR
  else if (c =? "0")%char then NUL
  else if (c =? "t")%char then TAB
  else if (c =? "v")%char then VT
  else if (c =? "f")%char then FF
  else if (c =? "b")%char then BS
  else if (c =? "a")%char then BEL
  else c.

(** ** The numeral pattern (line 96) and [std::regex_search] (line 98) *)

(** The pattern [num_re] is: an optional sign; one or more digits; optionally
    a point and zero or more digits; optionally [e] or [E], an optional sign
    and one or more digits.

    The three functions below give the number of characters that the
    optional sign, the optional fraction and the optional exponent take at
    the head of [s]; [span_len is_digit] does so for a run of digits. *)
Definition sign_len (s : string_view) : nat :=
  match s with
  | c :: _ => if is_sign c then 1 else 0
  | [] => 0
  end.

Definition frac_len (s : string_view) : nat :=
  match s with
  | c :: r => if (c =? ".")%char then 1 + span_len is_digit r else 0
  | [] => 0
  end.

Definition expo_len (s : string_view) : nat :=
  match s with
  | c :: r =>
      if is_exp_mark c then
        let esg := sign_len r in
        let ed := span_len is_digit (drop esg r) in
        if ed =? 0 then 0 else 1 + esg + ed
      else 0
  | [] => 0
  end.

(** [num_re_at s] is the length of the match that starts at the first
    character of [s], as the ECMAScript matcher finds it: each optional part
    is taken when it can be and each repetition is as long as it can be
    (nothing that follows can fail, so no repetition is ever shortened, and
    a sign that no digit follows leaves no match at this position). *)
Definition num_re_at (s : string_view) : option nat :=
  let sg := sign_len s in
  let nd := span_len is_digit (drop sg s) in
  if nd =? 0 then None
  else
    let nf := frac_len (drop (sg + nd) s) in
    let ne := expo_len (drop (sg + nd + nf) s) in
    Some (sg + nd + nf + ne).

(** [std::regex_search] with the numeral pattern: the match at the leftmost
    position where there is one, as (position, length). *)
Fixpoint regex_search (s : string_view) : option (nat * nat) :=
  match num_re_at s with
  | Some n => Some (0, n)
  | None =>
      match s with
      | [] => None
      | _ :: s' => prod_map S id <$> regex_search s'
      end
  end.

(** [match.str()]. *)
Definition match_str (s : string_view) (m : nat * nat) : string_view :=
  take m.2 (drop m.1 s).

(** ** [find_first_not_of] (line 89) *)

(** The argument of [find_first_not_of] is a string literal: space, LF, CR,
    TAB, VT, FF, an escaped NUL, and the NUL that ends every literal.  It is
    passed as a [const char*], so the set of characters is the C string it
    points to, which ends at the first NUL. *)
Definition whitespace_literal : string_view := [SP; LF; CR; TAB; VT; FF; NUL; NUL].

Fixpoint c_str (arr : string_view) : string_view :=
  match arr with
  | c :: arr' => if (c =? NUL)%char then [] else c :: c_str arr'
  | [] => []
  end.

Definition mem_chars (set : string_view) (c : ascii) : bool :=
  existsb (λ x, (x =? c)%char) set.

(** [json.find_first_not_of(set)]: [None] is [npos]. *)
Fixpoint find_first_not_of (set : string_view) (json : string_view) : option nat :=
  match json with
  | [] => None
  | c :: json' => if mem_chars set c then S <$> find_first_not_of set json' else Some 0
  end.

(** ** The loops of [Parse] *)

(** The string loop, lines 115-133: [rest] is what is left from index [i]. *)
Inductive phase : Type := Raw | Escaped.

Fixpoint string_loop (ph : phase) (rest : string_view) (i : nat) (str : string)
  : string * nat :=
  match rest with
  | [] => (str, i)
  | ch :: rest' =>
      match ph with
      | Raw =>
          if (ch =? BACKSLASH)%char then string_loop Escaped rest' (S i) str
          else if (ch =? DQUOTE)%char then (str, S i)
          else string_loop Raw rest' (S i) (str +:+ String ch "")
      | Escaped => string_loop Raw rest' (S i) (str +:+ String (UnescapedChar ch) "")
      end
  end.

(** How an iteration of a [for (i = 1; i < json.size();)] loop ends. *)
Inductive ctl : Type := Continue | Break.

(** [for (; i < size;) body]: [st.1] is [i]; after a [Break] or when the
    condition fails, the state is what the [return] after the loop sees.
    [n] bounds the number of iterations. *)
Fixpoint for_loop {R : Type} (size : nat)
    (body : nat * R → outcome (ctl * (nat * R))) (n : nat) (st : nat * R)
  : outcome (nat * R) :=
  if st.1 <? size then
    match n with
    | 0 => OutOfFuel
    | S n' =>
        r ← body st;
        match r.1 with
        | Continue => for_loop size body n' r.2
        | Break => Ok r.2
        end
    end
  else Ok st.

Section Bodies.
(** The recursive call [Parse(...)]. *)
Variable parse : string_view → outcome (JsonObject * nat).
Variable json : string_view.

(** One iteration of the list loop, lines 141-155. *)
Definition list_body (st : nat * JsonList) : outcome (ctl * (nat * JsonList)) :=
  let '(i, res) := st in
  ch ← at_ json i;
  if (ch =? "]")%char then Ok (Break, (i + 1, res))
  else
    '(obj, eaten) ← parse (substr json i);
    if eaten =? 0 then Ok (Break, (0, res))
    else
      let res := res ++ [obj] in
      let i := i + eaten in
      ch ← at_ json i;
      Ok (Continue, (if (ch =? ",")%char then i + 1 else i, res)).

(** One iteration of the dictionary loop, lines 164-195. *)
Definition dict_body (st : nat * JsonDict) : outcome (ctl * (nat * JsonDict)) :=
  let '(i, res) := st in
  ch ← at_ json i;
  if (ch =? "}")%char then Ok (Break, (i + 1, res))
  else
    '(key_obj, key_eaten) ← parse (substr json i);
    if key_eaten =? 0 then Ok (Break, (0, res))
    else
      let i := i + key_eaten in
      match key_obj with
      | JString key =>
          ch ← at_ json i;
          let i := if (ch =? ":")%char then i + 1 else i in
          '(val_obj, val_eaten) ← parse (substr json i);
          if val_eaten =? 0 then Ok (Break, (0, res))
          else
            let i := i + val_eaten in
            let res := try_emplace key val_obj res in
            ch ← at_ json i;
            Ok (Continue, (if (ch =? ",")%char then i + 1 else i, res))
      | _ => Ok (Break, (0, res))
      end.

(** The numeral branch, lines 96-108. *)
Definition parse_num : outcome (JsonObject * nat) :=
  match regex_search json with
  | Some m =>
      let str := match_str json m in
      match TryParseNum Z str with
      | Some num => Ok (JInt num, length str)
      | None =>
          match TryParseNum double str with
          | Some num => Ok (JDouble num, length str)
          | None => Ok (JNull, 0)
          end
      end
  | None => Ok (JNull, 0)
  end.

(** The branches on [json[0]], lines 95-199. *)
Definition Parse_branches (c0 : ascii) : outcome (JsonObject * nat) :=
  if is_digit c0 || (c0 =? "+")%char || (c0 =? "-")%char then parse_num
  else if (c0 =? DQUOTE)%char then
    let '(str, i) := string_loop Raw (drop 1 json) 1 "" in
    Ok (JString str, i)
  else if (c0 =? "[")%char then
    '(i, res) ← for_loop (length json) list_body (length json) (1, []);
    Ok (JList res, i)
  else if (c0 =? "{")%char then
    '(i, res) ← for_loop (length json) dict_body (length json) (1, ∅);
    Ok (JDict res, i)
  else Ok (JNull, 0).

(** The body of [Parse], lines 83-199. *)
Definition Parse_body : outcome (JsonObject * nat) :=
  match json with
  | [] => Ok (JNull, 0)
  | c0 :: _ =>
      match find_first_not_of (c_str whitespace_literal) json with
      | Some (S off') =>
          let off := S off' in
          '(obj, eaten) ← parse (substr json off);
          Ok (obj, eaten + off)
      | _ => Parse_branches c0
      end
  end.
End Bodies.

(** [Parse] with a bound on the depth of the recursion. *)
Fixpoint Parse_fuel (fuel : nat) (json : string_view) : outcome (JsonObject * nat) :=
  match fuel with
  | 0 => OutOfFuel
  | S fuel' => Parse_body (Parse_fuel fuel') json
  end.

(** [Parse], line 82: the depth never exceeds the length of the text. *)
Definition Parse (json : string_view) : outcome (JsonObject * nat) :=
  Parse_fuel (S (length json)) json.

(** ** Notions used in the statements *)

(** Every iteration of a loop body that continues moves the position
    forward. *)
Definition progresses {R : Type} (body : nat * R → outcome (ctl * (nat * R))) : Prop :=
  ∀ st st', body st = Ok (Continue, st') → st.1 < st'.1.

(** The loop from a state, with as many iterations as it may need. *)
Definition run_loop {R : Type} (size : nat)
    (body : nat * R → outcome (ctl * (nat * R))) (st : nat * R) : outcome (nat * R) :=
  for_loop size body (size - st.1) st.

(** One full iteration of a loop: the condition holds at [st] and the body
    runs to its end without [break]. *)
Definition loop_step {R : Type} (size : nat)
    (body : nat * R → outcome (ctl * (nat * R))) (st st' : nat * R) : Prop :=
  st.1 < size ∧ body st = Ok (Continue, st').

(** The states in which the list loop, resp. the dictionary loop, of
    [Parse json] tests its condition. *)
Definition list_reach (json : string_view) (st : nat * JsonList) : Prop :=
  rtc (loop_step (length json) (list_body Parse json)) (1, []) st.

Definition dict_reach (json : string_view) (st : nat * JsonDict) : Prop :=
  rtc (loop_step (length json) (dict_body Parse json)) (1, ∅) st.

(** Two [parse] functions agree on the proper suffixes of [json]. *)
Definition agree_on_suffixes (parse parse' : string_view → outcome (JsonObject * nat))
    (json : string_view) : Prop :=
  ∀ k, 1 ≤ k → parse (substr json k) = parse' (substr json k).

(** The list loop of [Parse json] has collected [res] and the parse of the
    next element, at a position that does not hold the closing bracket,
    consumes nothing. *)
Definition list_element_fails (json : string_view) (res : JsonList) : Prop :=
  ∃ i ch v,
    list_reach json (i, res) ∧ json !! i = Some ch ∧ ch ≠ "]"%char ∧
    Parse (substr json i) = Ok (v, 0).

(** The same for the parse of a key of the dictionary loop. *)
Definition dict_key_fails (json : string_view) (res : JsonDict) : Prop :=
  ∃ i ch v,
    dict_reach json (i, res) ∧ json !! i = Some ch ∧ ch ≠ "}"%char ∧
    Parse (substr json i) = Ok (v, 0).

(** The parse of a key succeeds with a value that is not a string. *)
Definition dict_key_not_string (json : string_view) (res : JsonDict) : Prop :=
  ∃ i ch key_obj key_eaten,
    dict_reach json (i, res) ∧ json !! i = Some ch ∧ ch ≠ "}"%char ∧
    Parse (substr json i) = Ok (key_obj, key_eaten) ∧ key_eaten ≠ 0 ∧
    ∀ key, key_obj ≠ JString key.

(** And for the parse of a value: the key at [i] is a string that takes
    [key_eaten] characters, the value is looked for at [j], after the colon
    if there is one, and its parse consumes nothing. *)
Definition dict_value_fails (json : string_view) (res : JsonDict) : Prop :=
  ∃ i ch key key_eaten ch' v,
    dict_reach json (i, res) ∧ json !! i = Some ch ∧ ch ≠ "}"%char ∧
    Parse (substr json i) = Ok (JString key, key_eaten) ∧ key_eaten ≠ 0 ∧
    json !! (i + key_eaten) = Some ch' ∧
    let j := if (ch' =? ":")%char then i + key_eaten + 1 else i + key_eaten in
    Parse (substr json j) = Ok (v, 0).

(** *** Texts of the shape of the numeral pattern *)

Definition opt_sign (s : string_view) : Prop :=
  s = [] ∨ ∃ c, is_sign c = true ∧ s = [c].

Definition all_digits (s : string_view) : Prop := Forall (λ c, is_digit c = true) s.

Definition digits1 (s : string_view) : Prop := s ≠ [] ∧ all_digits s.

Definition opt_frac (s : string_view) : Prop :=
  s = [] ∨ ∃ fd, all_digits fd ∧ s = "."%char :: fd.

Definition opt_expo (s : string_view) : Prop :=
  s = [] ∨ ∃ c sg ed, is_exp_mark c = true ∧ opt_sign sg ∧ digits1 ed ∧ s = c :: sg ++ ed.

(** [s] conforms to the pattern: sign, digits, fraction and exponent, the
    first, third and fourth optional. *)
Inductive numeral_shape : string_view → Prop :=
  | NumeralShape (sign ds frac expo : string_view) :
      opt_sign sign → digits1 ds → opt_frac frac → opt_expo expo →
      numeral_shape (sign ++ ds ++ frac ++ expo).

(** The first [n] characters of [s] are its longest prefix that conforms to
    the pattern. *)
Definition longest_numeral_prefix (s : string_view) (n : nat) : Prop :=
  n ≤ length s ∧ numeral_shape (take n s) ∧
  ∀ m, m ≤ length s → numeral_shape (take m s) → m ≤ n.

(** [json] begins with a digit, or with a minus sign and a digit. *)
Definition numeral_start (json : string_view) : Prop :=
  match json with
  | c :: rest =>
      is_digit c = true ∨
      (c = "-"%char ∧ ∃ d rest', rest = d :: rest' ∧ is_digit d = true)
  | [] => False
  end.

(** [json] begins with a sign. *)
Definition sign_start (json : string_view) : Prop :=
  match json with
  | c :: _ => is_sign c = true
  | [] => False
  end.

(** *** The content of a string literal *)

(** Whether a double quote that is not escaped occurs in [s]; [escaped]
    tells whether the first character of [s] follows a backslash. *)
Fixpoint has_closing_quote (escaped : bool) (s : string_view) : bool :=
  match s with
  | [] => false
  | c :: s' =>
      if escaped then has_closing_quote false s'
      else if (c =? DQUOTE)%char then true
      else has_closing_quote (c =? BACKSLASH)%char s'
  end.

Definition escaped_phase (ph : phase) : bool :=
  match ph with Raw => false | Escaped => true end.

(** The escape table as the specification gives it (section 4.2, item 4):
    n is LF, r is CR, t is TAB, v is VT, f is FF, b is BS, a is BEL, 0 is
    NUL, by their character codes; any other character is itself. *)
Definition escape_table : list (ascii * ascii) :=
  [("n", "010"); ("r", "013"); ("t", "009"); ("v", "011");
   ("f", "012"); ("b", "008"); ("a", "007"); ("0", "000")]%char.

Fixpoint escape_lookup (table : list (ascii * ascii)) (c : ascii) : ascii :=
  match table with
  | [] => c
  | entry :: table' => if (entry.1 =? c)%char then entry.2 else escape_lookup table' c
  end.

(** The characters [s] stands for once the escapes are decoded: a backslash
    and the character after it give the character of the escape table of
    the specification. *)
Fixpoint decode (escaped : bool) (s : string_view) : string :=
  match s with
  | [] => ""
  | c :: s' =>
      if escaped then String (escape_lookup escape_table c) (decode false s')
      else if (c =? BACKSLASH)%char then decode true s'
      else String c (decode false s')
  end.

(** ** The accessors of [JsonObject] (lines 32-45) *)

(** The seven alternatives of the variant, in the order of line 25. *)
Inductive alternative : Type :=
  | ANull | ABool | AInt | ADouble | AString | AList | ADict.

#[global] Instance alternative_eq_dec : EqDecision alternative.
Proof. solve_decision. Defined.

(** The C++ type of an alternative. *)
Definition payload (T : alternative) : Type :=
  match T with
  | ANull => unit
  | ABool => bool
  | AInt => Z
  | ADouble => double
  | AString => string
  | AList => list JsonObject
  | ADict => gmap string JsonObject
  end.

(** [JsonObject{x}] for [x] of the type of [T]. *)
Definition JsonObject_make (T : alternative) : payload T → JsonObject :=
  match T with
  | ANull => λ _, JNull
  | ABool => JBool
  | AInt => JInt
  | ADouble => JDouble
  | AString => JString
  | AList => JList
  | ADict => JDict
  end.

(** [inner.index()]: the alternative that is live. *)
Definition JsonObject_index (obj : JsonObject) : alternative :=
  match obj with
  | JNull => ANull
  | JBool _ => ABool
  | JInt _ => AInt
  | JDouble _ => ADouble
  | JString _ => AString
  | JList _ => AList
  | JDict _ => ADict
  end.

(** [obj.is<T>()], line 33: [std::holds_alternative<T>(inner)]. *)
Definition JsonObject_is (T : alternative) (obj : JsonObject) : bool :=
  bool_decide (JsonObject_index obj = T).

(** [obj.get<T>()], lines 38-45: [std::get<T>(inner)], which throws
    [std::bad_variant_access] ([None]) when [T] is not the live
    alternative. *)
Definition JsonObject_get (T : alternative) (obj : JsonObject) : option (payload T) :=
  match T return option (payload T) with
  | ANull => match obj with JNull => Some () | _ => None end
  | ABool => match obj with JBool b => Some b | _ => None end
  | AInt => match obj with JInt n => Some n | _ => None end
  | ADouble => match obj with JDouble d => Some d | _ => None end
  | AString => match obj with JString s => Some s | _ => None end
  | AList => match obj with JList l => Some l | _ => None end
  | ADict => match obj with JDict m => Some m | _ => None end
  end.

(** ** Notions used in the further properties *)

(** The six characters that [find_first_not_of] skips. *)
Definition is_space (c : ascii) : Prop := c ∈ [SP; LF; CR; TAB; VT; FF].

(** Whether the text [s] of a string literal ends in the middle of an
    escape; [escaped] tells whether its first character follows a
    backslash. *)
Fixpoint pending_escape (escaped : bool) (s : string_view) : bool :=
  match s with
  | [] => escaped
  | c :: s' =>
      if escaped then pending_escape false s'
      else pending_escape (c =? BACKSLASH)%char s'
  end.

(** The minus sign of a negative literal. *)
Definition minus_sign (neg : bool) : string_view := if neg then ["-"%char] else [].

(** What may follow a numeral without becoming part of it: nothing, or a
    character that is neither a digit, nor a point, nor an exponent mark. *)
Definition numeral_stop (rest : string_view) : Prop :=
  match rest with
  | [] => True
  | c :: _ => is_digit c = false ∧ c ≠ "."%char ∧ is_exp_mark c = false
  end.

(** What follows an element of a list or a value of a dictionary when the
    loop goes on or ends well: a comma or a closing bracket. *)
Definition stops (rest : string_view) : Prop :=
  match rest with
  | [] => False
  | c :: _ => c = ","%char ∨ c = "]"%char ∨ c = "}"%char
  end.

(** The text [e] is parsed into [v], whole and alone, whenever a comma or a
    closing bracket follows it. *)
Definition element (e : string_view) (v : JsonObject) : Prop :=
  e ≠ [] ∧ ∀ rest, stops rest → Parse (e ++ rest) = Ok (v, length e).

(** The texts [es] with a comma between each two. *)
Fixpoint join_comma (es : list string_view) : string_view :=
  match es with
  | [] => []
  | [e] => e
  | e :: es' => e ++ ","%char :: join_comma es'
  end.

(** The text [kt] is a string literal with both its quotes, and [key] is
    its content. *)
Definition string_literal (kt : string_view) (key : string) : Prop :=
  ∃ body, kt = DQUOTE :: body ++ [DQUOTE] ∧
          has_closing_quote false body = false ∧ pending_escape false body = false ∧
          key = decode false body.

(** The text of a dictionary entry: key, colon, value. *)
Definition entry_text (kv : string_view * string_view) : string_view :=
  kv.1 ++ ":"%char :: kv.2.

(** The text of the key is a string literal and the text of the value is
    parsed whole and alone. *)
Definition entry (et : string_view * string_view) (kv : string * JsonObject) : Prop :=
  string_literal et.1 kv.1 ∧ element et.2 kv.2.

(** The dictionary that the loop builds from the entries in order. *)
Definition dict_of (kvs : list (string * JsonObject)) : JsonDict :=
  foldl (λ res kv, try_emplace kv.1 kv.2 res) ∅ kvs.

(** Texts of the data format without [double], [bool] and null: integers
    that are [int]s, closed string literals, lists and dictionaries of such
    texts with a comma between each two, and white space before any of
    them; each with the value it stands for. *)
Inductive json_text : string_view → JsonObject → Prop :=
  | json_text_int (neg : bool) (ds : string_view) :
      digits1 ds →
      (INT_MIN ≤ (if neg then - digits_value ds else digits_value ds) ≤ INT_MAX)%Z →
      json_text (minus_sign neg ++ ds)
        (JInt (if neg then - digits_value ds else digits_value ds)%Z)
  | json_text_string (body : string_view) :
      has_closing_quote false body = false → pending_escape false body = false →
      json_text (DQUOTE :: body ++ [DQUOTE]) (JString (decode false body))
  | json_text_list (es : list string_view) (vs : list JsonObject) :
      Forall2 json_text es vs →
      json_text ("["%char :: join_comma es ++ ["]"%char]) (JList vs)
  | json_text_dict (ets : list (string_view * string_view))
      (kvs : list (string * JsonObject)) :
      Forall2 (λ et kv, string_literal et.1 kv.1 ∧ json_text et.2 kv.2) ets kvs →
      json_text ("{"%char :: join_comma (entry_text <$> ets) ++ ["}"%char])
        (JDict (dict_of kvs))
  | json_text_space (w t : string_view) (v : JsonObject) :
      Forall is_space w → json_text t v → json_text (w ++ t) v.

(** The value of the first entry of [kvs] that has the key [k]. *)
Fixpoint first_value (k : string) (kvs : list (string * JsonObject)) : option JsonObject :=
  match kvs with
  | [] => None
  | kv :: kvs' => if decide (kv.1 = k) then Some kv.2 else first_value k kvs'
  end.

(** The values that [Parse] can build: no [bool] at any depth, and every
    [int] within 32 bits. *)
Inductive parsed_value : JsonObject → Prop :=
  | parsed_null : parsed_value JNull
  | parsed_int (n : Z) : (INT_MIN ≤ n ≤ INT_MAX)%Z → parsed_value (JInt n)
  | parsed_double (d : double) : parsed_value (JDouble d)
  | parsed_string (s : string) : parsed_value (JString s)
  | parsed_list (l : list JsonObject) : Forall parsed_value l → parsed_value (JList l)
  | parsed_dict (m : gmap string JsonObject) :
      (∀ k v, m !! k = Some v → parsed_value v) → parsed_value (JDict m).

(** * Properties *)

(** ** The [for] loops *)

Lemma bind_Ok {A B} (m : outcome A) (f : A → outcome B) (b : B) :
  m ≫= f = Ok b ↔ ∃ a, m = Ok a ∧ f a = Ok b.
Proof.
  destruct m as [a| |]; simpl; split; try (intros [a' [? ?]]); try discriminate; eauto.
  congruence.
Qed.

Lemma bind_OutOfFuel {A B} (m : outcome A) (f : A → outcome B) :
  m ≫= f = OutOfFuel ↔ m = OutOfFuel ∨ ∃ a, m = Ok a ∧ f a = OutOfFuel.
Proof.
  destruct m as [a| |]; simpl; split; intros H; eauto; try discriminate.
  - destruct H as [H|[a' [H1 H2]]]; [discriminate|congruence].
  - destruct H as [H|[a' [H1 H2]]]; discriminate.
Qed.

Lemma at_Ok (json : string_view) (i : nat) (c : ascii) :
  at_ json i = Ok c ↔ json !! i = Some c.
Proof. unfold at_. destruct (json !! i); split; congruence. Qed.

Lemma at_lt (json : string_view) (i : nat) (c : ascii) :
  at_ json i = Ok c → i < length json.
Proof. rewrite at_Ok. apply lookup_lt_Some. Qed.

Lemma at_OutOfBounds (json : string_view) (i : nat) :
  at_ json i = OutOfBounds ↔ length json ≤ i.
Proof.
  unfold at_. destruct (json !! i) eqn:E.
  - apply lookup_lt_Some in E. split; [discriminate|lia].
  - apply lookup_ge_None in E. tauto.
Qed.

Lemma at_not_OutOfFuel (json : string_view) (i : nat) : at_ json i ≠ OutOfFuel.
Proof. unfold at_. destruct (json !! i); discriminate. Qed.

Section ForLoop.
Context {R : Type} (size : nat).
Implicit Types (body : nat * R → outcome (ctl * (nat * R))) (st : nat * R).

Lemma for_loop_exit body n st : size ≤ st.1 → for_loop size body n st = Ok st.
Proof.
  intros H. destruct n; simpl; destruct (st.1 <? size) eqn:E; try reflexivity;
    apply Nat.ltb_lt in E; lia.
Qed.

Lemma for_loop_break body n st st' :
  st.1 < size → body st = Ok (Break, st') → for_loop size body (S n) st = Ok st'.
Proof.
  intros H Hb. simpl. apply Nat.ltb_lt in H. rewrite H, Hb. reflexivity.
Qed.

Lemma for_loop_continue body n st st' :
  st.1 < size → body st = Ok (Continue, st') →
  for_loop size body (S n) st = for_loop size body n st'.
Proof.
  intros H Hb. simpl. apply Nat.ltb_lt in H. rewrite H, Hb. reflexivity.
Qed.

Lemma for_loop_fuel body n m st :
  progresses body → size - st.1 ≤ n → size - st.1 ≤ m →
  for_loop size body n st = for_loop size body m st.
Proof.
  intros Hp. revert m st. induction n as [|n IH]; intros m st Hn Hm.
  - rewrite !for_loop_exit by lia. reflexivity.
  - destruct (Nat.le_gt_cases size st.1) as [Hge|Hlt].
    { rewrite !for_loop_exit by lia. reflexivity. }
    destruct m as [|m]; [lia|].
    simpl. apply Nat.ltb_lt in Hlt as Hlt'. rewrite Hlt'.
    destruct (body st) as [[[] st']| |] eqn:Hb; simpl; try reflexivity.
    apply Hp in Hb. apply IH; lia.
Qed.

Lemma for_loop_ext body body' n st :
  progresses body → (∀ st, 1 ≤ st.1 → body st = body' st) → 1 ≤ st.1 →
  for_loop size body n st = for_loop size body' n st.
Proof.
  intros Hp He. revert st. induction n as [|n IH]; intros st H1; simpl.
  - reflexivity.
  - destruct (st.1 <? size); [|reflexivity].
    rewrite <- He by assumption.
    destruct (body st) as [[[] st']| |] eqn:Hb; simpl; try reflexivity.
    apply Hp in Hb. apply IH. lia.
Qed.

Lemma for_loop_not_OutOfFuel body n st :
  progresses body → (∀ st, 1 ≤ st.1 → body st ≠ OutOfFuel) → 1 ≤ st.1 →
  size - st.1 ≤ n → for_loop size body n st ≠ OutOfFuel.
Proof.
  intros Hp Hf. revert st. induction n as [|n IH]; intros st H1 Hn.
  - rewrite for_loop_exit by lia. discriminate.
  - simpl. destruct (st.1 <? size); [|discriminate].
    specialize (Hf st H1).
    destruct (body st) as [[[] st']| |] eqn:Hb; simpl; try congruence.
    apply Hp in Hb. apply IH; lia.
Qed.

Lemma run_loop_continue body st st' :
  progresses body → st.1 < size → body st = Ok (Continue, st') →
  run_loop size body st = run_loop size body st'.
Proof.
  intros Hp Hlt Hb. unfold run_loop.
  destruct (size - st.1) as [|n] eqn:E; [lia|].
  rewrite (for_loop_continue body n st st' Hlt Hb).
  apply Hp in Hb. apply for_loop_fuel; [assumption|lia..].
Qed.

Lemma run_loop_break body st st' :
  st.1 < size → body st = Ok (Break, st') → run_loop size body st = Ok st'.
Proof.
  intros Hlt Hb. unfold run_loop.
  destruct (size - st.1) as [|n] eqn:E; [lia|].
  apply for_loop_break; assumption.
Qed.

Lemma run_loop_exit body st : size ≤ st.1 → run_loop size body st = Ok st.
Proof. apply for_loop_exit. Qed.
End ForLoop.

(** ** Progress of the two loop bodies *)

Lemma list_body_progress parse json : progresses (list_body parse json).
Proof.
  intros [i res] st' H. unfold list_body in H.
  apply bind_Ok in H as (ch & _ & H).
  destruct (ch =? "]")%char; [discriminate|].
  apply bind_Ok in H as ([obj eaten] & _ & H).
  destruct (eaten =? 0) eqn:E; [discriminate|]. apply Nat.eqb_neq in E.
  apply bind_Ok in H as (ch' & _ & H).
  injection H as <-. simpl. destruct (ch' =? ",")%char; simpl; lia.
Qed.

Lemma dict_body_progress parse json : progresses (dict_body parse json).
Proof.
  intros [i res] st' H. unfold dict_body in H.
  apply bind_Ok in H as (ch & _ & H).
  destruct (ch =? "}")%char; [discriminate|].
  apply bind_Ok in H as ([key_obj key_eaten] & _ & H).
  destruct (key_eaten =? 0) eqn:E; [discriminate|]. apply Nat.eqb_neq in E.
  destruct key_obj; try discriminate.
  apply bind_Ok in H as (ch1 & _ & H).
  apply bind_Ok in H as ([val_obj val_eaten] & _ & H).
  destruct (val_eaten =? 0) eqn:E'; [discriminate|]. apply Nat.eqb_neq in E'.
  apply bind_Ok in H as (ch2 & _ & H).
  injection H as <-. simpl.
  destruct (ch1 =? ":")%char, (ch2 =? ",")%char; simpl; lia.
Qed.

(** ** The recursive calls are on proper suffixes

    [Parse_body] consults its [parse] argument only at [substr json k] with
    [1 ≤ k]: two [parse] functions that agree there give the same result. *)

Lemma list_body_ext parse parse' json st :
  agree_on_suffixes parse parse' json → 1 ≤ st.1 →
  list_body parse json st = list_body parse' json st.
Proof.
  destruct st as [i res]; simpl; intros agree Hi. unfold list_body.
  rewrite agree by assumption. reflexivity.
Qed.

Lemma dict_body_ext parse parse' json st :
  agree_on_suffixes parse parse' json → 1 ≤ st.1 →
  dict_body parse json st = dict_body parse' json st.
Proof.
  destruct st as [i res]; simpl; intros agree Hi. unfold dict_body.
  rewrite agree by assumption.
  destruct (at_ json i) as [ch| |]; simpl; try reflexivity.
  destruct (ch =? "}")%char; try reflexivity.
  destruct (parse' (substr json i)) as [[key_obj key_eaten]| |]; simpl; try reflexivity.
  destruct (key_eaten =? 0); try reflexivity.
  destruct key_obj; try reflexivity.
  destruct (at_ json (i + key_eaten)) as [ch1| |]; simpl; try reflexivity.
  rewrite agree by (destruct (ch1 =? ":")%char; lia). reflexivity.
Qed.

Lemma Parse_body_ext parse parse' json :
  agree_on_suffixes parse parse' json → Parse_body parse json = Parse_body parse' json.
Proof.
  intros agree. unfold Parse_body, Parse_branches. destruct json as [|c0 rest]; [reflexivity|].
  destruct (find_first_not_of _ (c0 :: rest)) as [[|off]|].
  2: { rewrite agree by lia. reflexivity. }
  all: repeat (match goal with |- context [if ?b then _ else _] => destruct b end;
               try reflexivity).
  all: first [ rewrite (for_loop_ext _ (list_body parse _) (list_body parse' (c0 :: rest)))
             | rewrite (for_loop_ext _ (dict_body parse _) (dict_body parse' (c0 :: rest))) ];
    auto using list_body_progress, dict_body_progress, list_body_ext, dict_body_ext.
Qed.

(** ** The recursion budget is never exhausted *)

Lemma length_substr (json : string_view) (k : nat) :
  json ≠ [] → 1 ≤ k → length (substr json k) < length json.
Proof.
  intros Hne Hk. unfold substr. rewrite length_drop.
  destruct json; [congruence|simpl; lia].
Qed.

Lemma Parse_fuel_stable (f1 f2 : nat) (json : string_view) :
  length json < f1 → length json < f2 → Parse_fuel f1 json = Parse_fuel f2 json.
Proof.
  revert f2 json. induction f1 as [|f1 IH]; intros f2 json H1 H2; [lia|].
  destruct f2 as [|f2]; [lia|]. simpl.
  destruct (decide (json = [])) as [->|Hne]; [reflexivity|].
  apply Parse_body_ext. intros k Hk.
  assert (length (substr json k) < length json) by (apply length_substr; [assumption|lia]).
  apply IH; lia.
Qed.

(** [Parse] satisfies the recursive equation of the source. *)
Lemma Parse_unfold (json : string_view) : Parse json = Parse_body Parse json.
Proof.
  unfold Parse at 1. simpl.
  destruct (decide (json = [])) as [->|Hne]; [reflexivity|].
  apply Parse_body_ext. intros k Hk.
  assert (length (substr json k) < length json) by (apply length_substr; [assumption|lia]).
  apply Parse_fuel_stable; lia.
Qed.

Lemma list_body_not_OutOfFuel parse json st :
  (∀ k, 1 ≤ k → parse (substr json k) ≠ OutOfFuel) → 1 ≤ st.1 →
  list_body parse json st ≠ OutOfFuel.
Proof.
  destruct st as [i res]; simpl; intros Hp Hi H. unfold list_body in H.
  apply bind_OutOfFuel in H as [H|(ch & _ & H)]; [by apply at_not_OutOfFuel in H|].
  destruct (ch =? "]")%char; [discriminate|].
  apply bind_OutOfFuel in H as [H|([obj eaten] & _ & H)]; [by apply Hp in H|].
  destruct (eaten =? 0); [discriminate|].
  apply bind_OutOfFuel in H as [H|(ch' & _ & H)]; [by apply at_not_OutOfFuel in H|].
  discriminate.
Qed.

Lemma dict_body_not_OutOfFuel parse json st :
  (∀ k, 1 ≤ k → parse (substr json k) ≠ OutOfFuel) → 1 ≤ st.1 →
  dict_body parse json st ≠ OutOfFuel.
Proof.
  destruct st as [i res]; simpl; intros Hp Hi H. unfold dict_body in H.
  apply bind_OutOfFuel in H as [H|(ch & _ & H)]; [by apply at_not_OutOfFuel in H|].
  destruct (ch =? "}")%char; [discriminate|].
  apply bind_OutOfFuel in H as [H|([key_obj key_eaten] & _ & H)]; [by apply Hp in H|].
  destruct (key_eaten =? 0); [discriminate|].
  destruct key_obj; try discriminate.
  apply bind_OutOfFuel in H as [H|(ch1 & _ & H)]; [by apply at_not_OutOfFuel in H|].
  apply bind_OutOfFuel in H as [H|([val_obj val_eaten] & _ & H)].
  { apply Hp in H; [done|]. destruct (ch1 =? ":")%char; lia. }
  destruct (val_eaten =? 0); [discriminate|].
  apply bind_OutOfFuel in H as [H|(ch2 & _ & H)]; [by apply at_not_OutOfFuel in H|].
  discriminate.
Qed.

Lemma Parse_body_not_OutOfFuel parse json :
  (∀ k, 1 ≤ k → parse (substr json k) ≠ OutOfFuel) →
  Parse_body parse json ≠ OutOfFuel.
Proof.
  intros Hp. unfold Parse_body, Parse_branches. destruct json as [|c0 rest]; [discriminate|].
  destruct (find_first_not_of _ (c0 :: rest)) as [[|off]|].
  2: { intros H. apply bind_OutOfFuel in H as [H|([obj eaten] & _ & H)];
       [by apply Hp in H; [|lia]|discriminate]. }
  all: destruct (_ || _).
  all: try (unfold parse_num; repeat case_match; discriminate).
  all: destruct (c0 =? DQUOTE)%char; [destruct (string_loop _ _ _ _); discriminate|].
  all: destruct (c0 =? "[")%char.
  all: try (intros H; apply bind_OutOfFuel in H as [H|([i res] & _ & H)]; [|discriminate];
            revert H; apply for_loop_not_OutOfFuel;
            auto using list_body_progress, list_body_not_OutOfFuel; simpl; lia).
  all: destruct (c0 =? "{")%char; [|discriminate].
  all: intros H; apply bind_OutOfFuel in H as [H|([i res] & _ & H)]; [|discriminate];
       revert H; apply for_loop_not_OutOfFuel;
       auto using dict_body_progress, dict_body_not_OutOfFuel; simpl; lia.
Qed.

Lemma Parse_fuel_not_OutOfFuel (fuel : nat) (json : string_view) :
  length json < fuel → Parse_fuel fuel json ≠ OutOfFuel.
Proof.
  revert json. induction fuel as [|fuel IH]; intros json H; [lia|]. simpl.
  destruct (decide (json = [])) as [->|Hne]; [discriminate|].
  apply Parse_body_not_OutOfFuel. intros k Hk. apply IH.
  assert (length (substr json k) < length json) by (apply length_substr; [assumption|lia]).
  lia.
Qed.

Lemma Parse_not_OutOfFuel (json : string_view) : Parse json ≠ OutOfFuel.
Proof. apply Parse_fuel_not_OutOfFuel. lia. Qed.

(** ** Leading white space *)

Lemma whitespace_chars : c_str whitespace_literal = [SP; LF; CR; TAB; VT; FF].
Proof. reflexivity. Qed.

Lemma mem_chars_true (set : string_view) (c : ascii) : mem_chars set c = true ↔ c ∈ set.
Proof.
  unfold mem_chars. rewrite existsb_exists. split.
  - intros (x & Hin & Heq). apply Ascii.eqb_eq in Heq as <-. by apply list_elem_of_In.
  - intros Hin. exists c. split; [by apply list_elem_of_In|apply Ascii.eqb_refl].
Qed.

Lemma Parse_branches_whitespace parse json (c : ascii) :
  mem_chars (c_str whitespace_literal) c = true → Parse_branches parse json c = Ok (JNull, 0).
Proof.
  rewrite mem_chars_true, whitespace_chars. intros Hin.
  repeat (apply elem_of_cons in Hin as [->|Hin]; [reflexivity|]).
  by apply elem_of_nil in Hin.
Qed.

Lemma find_first_not_of_None set json :
  find_first_not_of set json = None ↔ Forall (λ c, mem_chars set c = true) json.
Proof.
  induction json as [|c json IH]; simpl.
  - split; [constructor|reflexivity].
  - destruct (mem_chars set c) eqn:E.
    + rewrite fmap_None, IH. split; [by constructor|by inversion 1].
    + split; [discriminate|]. inversion 1; congruence.
Qed.

Lemma find_first_not_of_app set w json :
  Forall (λ c, mem_chars set c = true) w →
  find_first_not_of set (w ++ json) = (λ k, length w + k) <$> find_first_not_of set json.
Proof.
  induction 1 as [|c w Hc _ IH]; simpl.
  - by destruct (find_first_not_of set json).
  - rewrite Hc, IH. by destruct (find_first_not_of set json).
Qed.

Lemma Parse_all_whitespace (json : string_view) :
  find_first_not_of (c_str whitespace_literal) json = None → Parse json = Ok (JNull, 0).
Proof.
  intros H. rewrite Parse_unfold. unfold Parse_body. rewrite H.
  destruct json as [|c0 rest]; [reflexivity|].
  apply find_first_not_of_None, Forall_cons in H as [H _].
  by apply Parse_branches_whitespace.
Qed.

Lemma Parse_not_whitespace (c : ascii) (rest : string_view) :
  mem_chars (c_str whitespace_literal) c = false →
  Parse (c :: rest) = Parse_branches Parse (c :: rest) c.
Proof.
  intros H. rewrite Parse_unfold. unfold Parse_body.
  cbn [find_first_not_of]. by rewrite H.
Qed.

(** Skipping [off] leading characters, line 89-93 ([off] may be 0: then
    the slice itself is parsed). *)
Lemma Parse_skip (json : string_view) (off : nat) :
  find_first_not_of (c_str whitespace_literal) json = Some off →
  Parse json = '(obj, eaten) ← Parse (substr json off); Ok (obj, eaten + off).
Proof.
  intros H. destruct off as [|off].
  - unfold substr. rewrite drop_0.
    destruct (Parse json) as [[obj eaten]| |]; simpl; [|done..].
    by rewrite Nat.add_0_r.
  - rewrite Parse_unfold at 1. unfold Parse_body. rewrite H.
    destruct json; [discriminate|reflexivity].
Qed.

(** ** Entries of the dictionary under construction *)

Lemma try_emplace_present (key : string) (val val0 : JsonObject) (res : JsonDict) :
  res !! key = Some val0 → try_emplace key val res = res.
Proof. intros H. unfold try_emplace. by rewrite H. Qed.

Lemma try_emplace_keeps (key k : string) (val v : JsonObject) (res : JsonDict) :
  res !! k = Some v → try_emplace key val res !! k = Some v.
Proof.
  intros H. unfold try_emplace. destruct (res !! key) eqn:E; [done|].
  rewrite lookup_insert_ne; [done|]. congruence.
Qed.

Lemma dict_body_keeps parse json st c st' (k : string) (v : JsonObject) :
  dict_body parse json st = Ok (c, st') → st.2 !! k = Some v → st'.2 !! k = Some v.
Proof.
  destruct st as [i res]. simpl. intros H Hk. unfold dict_body in H.
  apply bind_Ok in H as (ch & _ & H).
  destruct (ch =? "}")%char; [by injection H as <- <-|].
  apply bind_Ok in H as ([key_obj key_eaten] & _ & H).
  destruct (key_eaten =? 0); [by injection H as <- <-|].
  destruct key_obj; try (by injection H as <- <-).
  apply bind_Ok in H as (ch1 & _ & H).
  apply bind_Ok in H as ([val_obj val_eaten] & _ & H).
  destruct (val_eaten =? 0); [by injection H as <- <-|].
  apply bind_Ok in H as (ch2 & _ & H). injection H as <- <-. simpl.
  by apply try_emplace_keeps.
Qed.

(** ** String literals *)

Lemma append_snoc (s t : string) (c : ascii) :
  (s +:+ String c "") +:+ t = s +:+ String c t.
Proof.
  induction s as [|a s IH]; [reflexivity|].
  change (String a ((s +:+ String c "") +:+ t) = String a (s +:+ String c t)).
  by rewrite IH.
Qed.

Lemma append_empty_r (s : string) : s +:+ "" = s.
Proof.
  induction s as [|a s IH]; [reflexivity|].
  change (String a (s +:+ "") = String a s). by rewrite IH.
Qed.

(** [UnescapedChar] is the escape table of the specification. *)
Lemma UnescapedChar_table (c : ascii) : UnescapedChar c = escape_lookup escape_table c.
Proof. destruct c as [[] [] [] [] [] [] [] []]; reflexivity. Qed.

#[local] Arguments escape_lookup : simpl never.
#[local] Arguments UnescapedChar : simpl never.

Lemma string_loop_unterminated (ph : phase) (rest : string_view) (i : nat) (str : string) :
  has_closing_quote (escaped_phase ph) rest = false →
  string_loop ph rest i str = (str +:+ decode (escaped_phase ph) rest, i + length rest).
Proof.
  revert ph i str. induction rest as [|ch rest IH]; intros ph i str H; simpl.
  - by rewrite append_empty_r, Nat.add_0_r.
  - destruct ph; simpl in *.
    + destruct (ch =? BACKSLASH)%char eqn:Eb.
      * destruct (ch =? DQUOTE)%char; [discriminate|].
        rewrite (IH Escaped) by assumption. simpl. f_equal. lia.
      * destruct (ch =? DQUOTE)%char; [discriminate|].
        rewrite (IH Raw) by assumption. simpl. rewrite append_snoc. f_equal. lia.
    + rewrite (IH Raw) by assumption. simpl.
      rewrite append_snoc, UnescapedChar_table. f_equal. lia.
Qed.

(** ** The states of the list and dictionary loops *)

Lemma run_loop_reach {R : Type} (size : nat) (body : nat * R → outcome (ctl * (nat * R)))
    (st0 st : nat * R) :
  progresses body → rtc (loop_step size body) st0 st →
  run_loop size body st0 = run_loop size body st.
Proof.
  intros Hp. induction 1 as [st|st st1 st2 [Hlt Hb] _ IH]; [reflexivity|].
  rewrite <- IH. by apply run_loop_continue.
Qed.

Lemma Parse_list (rest : string_view) :
  let json := "["%char :: rest in
  Parse json = '(i, res) ← run_loop (length json) (list_body Parse json) (1, []);
               Ok (JList res, i).
Proof.
  intros json. unfold json at 1. rewrite Parse_not_whitespace by reflexivity.
  fold json. unfold Parse_branches, run_loop. simpl (_ || _). cbv iota.
  change (("[" =? DQUOTE)%char) with false. rewrite Ascii.eqb_refl. cbv iota.
  rewrite (for_loop_fuel _ _ (length json) (length json - (1, @nil JsonObject).1));
    auto using list_body_progress; simpl; lia.
Qed.

Lemma Parse_dict (rest : string_view) :
  let json := "{"%char :: rest in
  Parse json = '(i, res) ← run_loop (length json) (dict_body Parse json) (1, ∅);
               Ok (JDict res, i).
Proof.
  intros json. unfold json at 1. rewrite Parse_not_whitespace by reflexivity.
  fold json. unfold Parse_branches, run_loop. simpl (_ || _). cbv iota.
  change (("{" =? DQUOTE)%char) with false. change (("{" =? "[")%char) with false.
  rewrite Ascii.eqb_refl. cbv iota.
  rewrite (for_loop_fuel _ _ (length json) (length json - (1, (∅ : JsonDict)).1));
    auto using dict_body_progress; simpl; lia.
Qed.

Lemma list_body_continue_le parse json st st' :
  list_body parse json st = Ok (Continue, st') → st'.1 ≤ length json.
Proof.
  destruct st as [i res]. intros H. unfold list_body in H.
  apply bind_Ok in H as (ch & _ & H).
  destruct (ch =? "]")%char; [discriminate|].
  apply bind_Ok in H as ([obj eaten] & _ & H).
  destruct (eaten =? 0); [discriminate|].
  apply bind_Ok in H as (ch' & Hat & H). apply at_lt in Hat.
  injection H as <-. simpl. destruct (ch' =? ",")%char; simpl; lia.
Qed.

Lemma dict_body_continue_le parse json st st' :
  dict_body parse json st = Ok (Continue, st') → st'.1 ≤ length json.
Proof.
  destruct st as [i res]. intros H. unfold dict_body in H.
  apply bind_Ok in H as (ch & _ & H).
  destruct (ch =? "}")%char; [discriminate|].
  apply bind_Ok in H as ([key_obj key_eaten] & _ & H).
  destruct (key_eaten =? 0); [discriminate|].
  destruct key_obj; try discriminate.
  apply bind_Ok in H as (ch1 & _ & H).
  apply bind_Ok in H as ([val_obj val_eaten] & _ & H).
  destruct (val_eaten =? 0); [discriminate|].
  apply bind_Ok in H as (ch2 & Hat & H). apply at_lt in Hat.
  injection H as <-. simpl. destruct (ch2 =? ",")%char; simpl; lia.
Qed.

Lemma loop_reach_bounds {R : Type} (size : nat) (body : nat * R → outcome (ctl * (nat * R)))
    (st0 st : nat * R) :
  progresses body → (∀ st st', body st = Ok (Continue, st') → st'.1 ≤ size) →
  rtc (loop_step size body) st0 st → st0.1 ≤ size → st0.1 ≤ st.1 ≤ size.
Proof.
  intros Hp Hle Hr H0. induction Hr as [st|st st1 st2 [Hlt Hb] _ IH]; [lia|].
  pose proof (Hp _ _ Hb). pose proof (Hle _ _ Hb). lia.
Qed.

Lemma list_reach_bounds json st :
  json ≠ [] → list_reach json st → 1 ≤ st.1 ≤ length json.
Proof.
  intros Hne Hr.
  apply (loop_reach_bounds _ _ _ _ (list_body_progress _ _)
           (list_body_continue_le Parse json)) in Hr; [exact Hr|].
  destruct json; [done|simpl; lia].
Qed.

Lemma dict_reach_bounds json st :
  json ≠ [] → dict_reach json st → 1 ≤ st.1 ≤ length json.
Proof.
  intros Hne Hr.
  apply (loop_reach_bounds _ _ _ _ (dict_body_progress _ _)
           (dict_body_continue_le Parse json)) in Hr; [exact Hr|].
  destruct json; [done|simpl; lia].
Qed.

Lemma Parse_list_reach rest st :
  let json := "["%char :: rest in
  list_reach json st →
  Parse json = '(i, res) ← run_loop (length json) (list_body Parse json) st;
               Ok (JList res, i).
Proof.
  intros json Hr. unfold json at 1. rewrite Parse_list. fold json.
  by rewrite (run_loop_reach _ _ _ _ (list_body_progress _ _) Hr).
Qed.

Lemma Parse_dict_reach rest st :
  let json := "{"%char :: rest in
  dict_reach json st →
  Parse json = '(i, res) ← run_loop (length json) (dict_body Parse json) st;
               Ok (JDict res, i).
Proof.
  intros json Hr. unfold json at 1. rewrite Parse_dict. fold json.
  by rewrite (run_loop_reach _ _ _ _ (dict_body_progress _ _) Hr).
Qed.

Lemma list_element_fails_example : list_element_fails (lit "[1,x]") [JInt 1].
Proof.
  exists 3, "x"%char, JNull. split; [|by vm_compute].
  eapply rtc_l; [|apply rtc_refl]. split; [simpl; lia|vm_compute; reflexivity].
Qed.

(** ** The numeral pattern *)

Lemma is_sign_cases (c : ascii) : is_sign c = true → c = "+"%char ∨ c = "-"%char.
Proof. unfold is_sign. rewrite Bool.orb_true_iff, !Ascii.eqb_eq. tauto. Qed.

Lemma is_exp_mark_cases (c : ascii) : is_exp_mark c = true → c = "e"%char ∨ c = "E"%char.
Proof. unfold is_exp_mark. rewrite Bool.orb_true_iff, !Ascii.eqb_eq. tauto. Qed.

Lemma digit_not_sign (c : ascii) : is_digit c = true → is_sign c = false.
Proof.
  intros H. destruct (is_sign c) eqn:E; [|reflexivity].
  apply is_sign_cases in E as [-> | ->]; discriminate.
Qed.

Lemma exp_mark_not_digit (c : ascii) : is_exp_mark c = true → is_digit c = false.
Proof. intros [-> | ->]%is_exp_mark_cases; reflexivity. Qed.

Lemma exp_mark_not_point (c : ascii) : is_exp_mark c = true → (c =? ".")%char = false.
Proof. intros [-> | ->]%is_exp_mark_cases; reflexivity. Qed.

Lemma span_len_le (p : ascii → bool) (s : string_view) : span_len p s ≤ length s.
Proof. induction s as [|c s IH]; simpl; [lia|]. destruct (p c); simpl; lia. Qed.

Lemma span_len_Forall (p : ascii → bool) (s : string_view) :
  Forall (λ c, p c = true) (take (span_len p s) s).
Proof.
  induction s as [|c s IH]; simpl; [constructor|].
  destruct (p c) eqn:E; simpl; [by constructor|constructor].
Qed.

Lemma span_len_app (p : ascii → bool) (ds r : string_view) :
  Forall (λ c, p c = true) ds → span_len p (ds ++ r) = length ds + span_len p r.
Proof. induction 1 as [|c ds Hc _ IH]; simpl; [reflexivity|]. by rewrite Hc, IH. Qed.

(** *** What the matcher returns has the shape of the pattern *)

Lemma sign_len_le (s : string_view) : sign_len s ≤ length s.
Proof. destruct s as [|c s]; simpl; [lia|]. destruct (is_sign c); simpl; lia. Qed.

Lemma frac_len_le (s : string_view) : frac_len s ≤ length s.
Proof.
  destruct s as [|c s]; simpl; [lia|].
  pose proof (span_len_le is_digit s). destruct (c =? ".")%char; simpl; lia.
Qed.

Lemma expo_len_le (s : string_view) : expo_len s ≤ length s.
Proof.
  destruct s as [|c s]; simpl; [lia|]. destruct (is_exp_mark c); [|lia].
  pose proof (sign_len_le s) as H0.
  pose proof (span_len_le is_digit (drop (sign_len s) s)) as H.
  rewrite length_drop in H.
  destruct (span_len is_digit (drop (sign_len s) s) =? 0); simpl; lia.
Qed.

Lemma sign_len_shape (s : string_view) : opt_sign (take (sign_len s) s).
Proof.
  destruct s as [|c s]; simpl; [by left|].
  destruct (is_sign c) eqn:E; simpl; [right; by exists c|by left].
Qed.

Lemma digits_shape (s : string_view) :
  span_len is_digit s ≠ 0 → digits1 (take (span_len is_digit s) s).
Proof.
  intros H. split; [|apply span_len_Forall].
  intros E. apply (f_equal length) in E.
  rewrite length_take_le in E by apply span_len_le. simpl in E. lia.
Qed.

Lemma frac_len_shape (s : string_view) : opt_frac (take (frac_len s) s).
Proof.
  destruct s as [|c s]; simpl; [by left|].
  destruct (c =? ".")%char eqn:E; simpl; [|by left].
  apply Ascii.eqb_eq in E as ->. right. eexists. split; [apply span_len_Forall|reflexivity].
Qed.

Lemma expo_len_shape (s : string_view) : opt_expo (take (expo_len s) s).
Proof.
  destruct s as [|c s]; simpl; [by left|].
  destruct (is_exp_mark c) eqn:E; simpl; [|by left].
  destruct (span_len is_digit (drop (sign_len s) s) =? 0) eqn:Ed; simpl; [by left|].
  apply Nat.eqb_neq in Ed. right.
  exists c, (take (sign_len s) s),
    (take (span_len is_digit (drop (sign_len s) s)) (drop (sign_len s) s)).
  split; [assumption|]. split; [apply sign_len_shape|].
  split; [by apply digits_shape|]. by rewrite take_take_drop.
Qed.

Lemma num_re_at_sound (s : string_view) (n : nat) :
  num_re_at s = Some n → n ≤ length s ∧ numeral_shape (take n s).
Proof.
  unfold num_re_at.
  set (sg := sign_len s). set (nd := span_len is_digit (drop sg s)).
  set (nf := frac_len (drop (sg + nd) s)). set (ne := expo_len (drop (sg + nd + nf) s)).
  destruct (nd =? 0) eqn:End; [discriminate|]. apply Nat.eqb_neq in End.
  intros [= <-]. split.
  - pose proof (sign_len_le s) as H. pose proof (span_len_le is_digit (drop sg s)) as H1.
    pose proof (frac_len_le (drop (sg + nd) s)) as H2.
    pose proof (expo_len_le (drop (sg + nd + nf) s)) as H3.
    rewrite length_drop in H1, H2, H3. fold sg nd nf ne in H, H1, H2, H3. lia.
  - replace (take (sg + nd + nf + ne) s)
      with (take sg s ++ take nd (drop sg s) ++ take nf (drop (sg + nd) s)
              ++ take ne (drop (sg + nd + nf) s)).
    + constructor; [apply sign_len_shape|by apply digits_shape
                   |apply frac_len_shape|apply expo_len_shape].
    + rewrite <- (drop_drop s nf (sg + nd)), take_take_drop.
      rewrite <- (drop_drop s nd sg), take_take_drop.
      rewrite take_take_drop. f_equal. lia.
Qed.

(** *** Every prefix of the shape of the pattern is within the match *)

Lemma sign_len_app (sign r : string_view) (c : ascii) (r' : string_view) :
  opt_sign sign → r = c :: r' → is_digit c = true → sign_len (sign ++ r) = length sign.
Proof.
  intros [->|(x & Hx & ->)] -> Hc; simpl.
  - by rewrite digit_not_sign.
  - by rewrite Hx.
Qed.

Lemma frac_len_app (frac r : string_view) :
  opt_frac frac → length frac ≤ frac_len (frac ++ r).
Proof.
  intros [->|(fd & Hfd & ->)]; simpl; [lia|].
  rewrite span_len_app by assumption. lia.
Qed.

Lemma expo_len_app (expo r : string_view) :
  opt_expo expo → length expo ≤ expo_len (expo ++ r).
Proof.
  intros [->|(c & sg & ed & Hc & Hsg & [Hne Hed] & ->)]; simpl; [lia|].
  rewrite Hc. destruct ed as [|d ed]; [done|].
  rewrite <- app_assoc.
  rewrite (sign_len_app sg ((d :: ed) ++ r) d (ed ++ r) Hsg eq_refl)
    by (by inversion Hed).
  rewrite drop_app_length, span_len_app by assumption.
  rewrite length_app. simpl. lia.
Qed.

Lemma num_re_at_complete (sign ds frac expo tail : string_view) :
  opt_sign sign → digits1 ds → opt_frac frac → opt_expo expo →
  ∃ n, num_re_at (sign ++ ds ++ frac ++ expo ++ tail) = Some n ∧
       length sign + length ds + length frac + length expo ≤ n.
Proof.
  intros Hsign [Hne Hds] Hfrac Hexpo.
  destruct ds as [|d ds']; [done|]. set (ds := d :: ds') in *.
  set (R := frac ++ expo ++ tail).
  assert (Hd : is_digit d = true) by (by inversion Hds).
  unfold num_re_at.
  rewrite (sign_len_app sign (ds ++ R) d (ds' ++ R) Hsign eq_refl Hd).
  rewrite drop_app_length, span_len_app by assumption.
  destruct (length ds + span_len is_digit R =? 0) eqn:E.
  { apply Nat.eqb_eq in E. simpl in E. lia. }
  eexists. split; [reflexivity|].
  assert (HR0 : frac ++ expo ≠ [] → span_len is_digit R = 0).
  { intros HR. unfold R.
    destruct Hfrac as [->|(fd & _ & ->)]; [|reflexivity]. simpl in *.
    destruct Hexpo as [->|(c & sg & ed & Hc & _ & _ & ->)]; [done|].
    simpl. by rewrite exp_mark_not_digit. }
  destruct (decide (frac ++ expo = [])) as [Hnil|Hnn].
  { apply app_eq_nil in Hnil as [-> ->]. simpl. lia. }
  rewrite (HR0 Hnn), Nat.add_0_r.
  rewrite <- Nat.add_assoc, drop_app_add, drop_app_length.
  assert (Hnf : frac_len R = length frac ∨ expo = []).
  { destruct Hexpo as [->|(c & sg & ed & Hc & _ & _ & ->)]; [by right|left].
    unfold R. destruct Hfrac as [->|(fd & Hfd & ->)]; simpl.
    - by rewrite exp_mark_not_point.
    - rewrite span_len_app by assumption. simpl. rewrite exp_mark_not_digit by assumption. lia. }
  destruct Hnf as [Hnf| ->].
  - rewrite Hnf.
    replace (drop (length sign + length ds + length frac) (sign ++ ds ++ R))
      with (expo ++ tail).
    + pose proof (expo_len_app expo tail Hexpo). lia.
    + rewrite <- !Nat.add_assoc, drop_app_add, drop_app_add. unfold R.
      by rewrite drop_app_length.
  - pose proof (frac_len_app frac ([] ++ tail) Hfrac). fold R in H. simpl. lia.
Qed.

(** The matcher finds the longest prefix of the shape of the pattern, and
    finds none only when there is none. *)
Lemma num_re_at_longest (s : string_view) (n : nat) :
  num_re_at s = Some n → longest_numeral_prefix s n.
Proof.
  intros H. destruct (num_re_at_sound s n H) as [Hle Hshape].
  split; [assumption|]. split; [assumption|].
  intros m Hm Hs. rewrite <- (take_drop m s) in H.
  assert (Hlen : length (take m s) = m) by (by apply length_take_le).
  destruct Hs as [sign ds frac expo H1 H2 H3 H4].
  destruct (num_re_at_complete sign ds frac expo (drop m s) H1 H2 H3 H4) as (n' & Hn' & Hle').
  rewrite <- !app_assoc in H. rewrite Hn' in H. injection H as <-.
  rewrite !length_app in Hlen. lia.
Qed.

Lemma num_re_at_None (s : string_view) (m : nat) :
  num_re_at s = None → ¬ numeral_shape (take m s).
Proof.
  intros H Hs. rewrite <- (take_drop m s) in H.
  destruct Hs as [sign ds frac expo H1 H2 H3 H4].
  destruct (num_re_at_complete sign ds frac expo (drop m s) H1 H2 H3 H4) as (n' & Hn' & _).
  rewrite <- !app_assoc in H. congruence.
Qed.

Lemma regex_search_at_0 (s : string_view) (n : nat) :
  num_re_at s = Some n → regex_search s = Some (0, n).
Proof. intros H. destruct s; cbn [regex_search]; by rewrite H. Qed.

Lemma digit_not_whitespace (c : ascii) :
  is_digit c = true → mem_chars (c_str whitespace_literal) c = false.
Proof.
  intros H. destruct (mem_chars _ c) eqn:E; [|reflexivity].
  apply mem_chars_true in E. rewrite whitespace_chars in E.
  repeat (apply elem_of_cons in E as [->|E]; [discriminate|]).
  by apply elem_of_nil in E.
Qed.

Lemma sign_not_whitespace (c : ascii) :
  is_sign c = true → mem_chars (c_str whitespace_literal) c = false.
Proof. intros [-> | ->]%is_sign_cases; reflexivity. Qed.

Lemma digit_head_match (c : ascii) (rest : string_view) :
  is_digit c = true → ∃ n, num_re_at (c :: rest) = Some n ∧ 1 ≤ n.
Proof.
  intros Hc.
  destruct (num_re_at_complete [] [c] [] [] rest) as (n & Hn & Hlen);
    [by left|split; [done|by repeat constructor]|by left|by left|].
  exists n. split; [exact Hn|simpl in Hlen; lia].
Qed.

Lemma sign_digit_head_match (c d : ascii) (rest : string_view) :
  is_sign c = true → is_digit d = true →
  ∃ n, num_re_at (c :: d :: rest) = Some n ∧ 2 ≤ n.
Proof.
  intros Hc Hd.
  destruct (num_re_at_complete [c] [d] [] [] rest) as (n & Hn & Hlen);
    [right; by exists c|split; [done|by repeat constructor]|by left|by left|].
  exists n. split; [exact Hn|simpl in Hlen; lia].
Qed.

Lemma numeral_start_match (json : string_view) :
  numeral_start json → ∃ n, num_re_at json = Some n ∧ 0 < n.
Proof.
  destruct json as [|c rest]; [done|].
  intros [Hc|(-> & d & rest' & -> & Hd)].
  - destruct (digit_head_match c rest Hc) as (n & Hn & Hlen).
    exists n. split; [exact Hn|lia].
  - destruct (sign_digit_head_match "-" d rest' eq_refl Hd) as (n & Hn & Hlen).
    exists n. split; [exact Hn|lia].
Qed.

Lemma no_digit_no_match_here (s : string_view) :
  Forall (λ c, is_digit c = false) s → num_re_at s = None.
Proof.
  intros H. unfold num_re_at.
  apply (Forall_drop _ (sign_len s)) in H.
  destruct H as [|c r Hc _]; simpl; [reflexivity|]. by rewrite Hc.
Qed.

Lemma no_digit_no_match (s : string_view) :
  Forall (λ c, is_digit c = false) s → regex_search s = None.
Proof.
  induction s as [|c s IH]; intros H.
  - reflexivity.
  - cbn [regex_search]. rewrite (no_digit_no_match_here _ H).
    apply Forall_cons in H as [_ H]. by rewrite (IH H).
Qed.

Lemma list_body_zero parse json (i : nat) (res : JsonList) (ch : ascii) (v : JsonObject) :
  json !! i = Some ch → ch ≠ "]"%char → parse (substr json i) = Ok (v, 0) →
  list_body parse json (i, res) = Ok (Break, (0, res)).
Proof.
  intros Hi Hch Hp. unfold list_body. rewrite (proj2 (at_Ok _ _ _) Hi). simpl.
  apply Ascii.eqb_neq in Hch. by rewrite Hch, Hp.
Qed.

Lemma dict_body_zero parse json (i : nat) (res : JsonDict) (ch : ascii) (v : JsonObject) :
  json !! i = Some ch → ch ≠ "}"%char → parse (substr json i) = Ok (v, 0) →
  dict_body parse json (i, res) = Ok (Break, (0, res)).
Proof.
  intros Hi Hch Hp. unfold dict_body. rewrite (proj2 (at_Ok _ _ _) Hi). simpl.
  apply Ascii.eqb_neq in Hch. by rewrite Hch, Hp.
Qed.

(** ** Where the count 0 comes from *)

Lemma for_loop_zero {R : Type} (size : nat) (body : nat * R → outcome (ctl * (nat * R)))
    (n : nat) (st0 stf : nat * R) :
  progresses body → 1 ≤ st0.1 → for_loop size body n st0 = Ok stf → stf.1 = 0 →
  ∃ st, rtc (loop_step size body) st0 st ∧ st.1 < size ∧ body st = Ok (Break, stf).
Proof.
  intros Hp. revert st0. induction n as [|n IH]; intros st0 H1 H Hz; simpl in H.
  - destruct (st0.1 <? size); [discriminate|]. injection H as <-. lia.
  - destruct (st0.1 <? size) eqn:Hlt; [|injection H as <-; lia].
    apply Nat.ltb_lt in Hlt.
    apply bind_Ok in H as ([c st1] & Hb & H). simpl in H. destruct c.
    + pose proof (Hp _ _ Hb) as Hprog.
      destruct (IH st1 ltac:(lia) H Hz) as (st & Hr & Hst & Hbr).
      exists st. split; [|done]. eapply rtc_l; [|exact Hr]. by split.
    + injection H as <-. exists st0. split; [apply rtc_refl|done].
Qed.

Lemma list_body_break_zero parse json (i : nat) (res res' : JsonList) :
  list_body parse json (i, res) = Ok (Break, (0, res')) →
  res' = res ∧ ∃ ch v, json !! i = Some ch ∧ ch ≠ "]"%char ∧
                       parse (substr json i) = Ok (v, 0).
Proof.
  intros H. unfold list_body in H.
  apply bind_Ok in H as (ch & Hat & H). apply at_Ok in Hat.
  destruct (ch =? "]")%char eqn:Ech; [injection H as H _; lia|].
  apply Ascii.eqb_neq in Ech.
  apply bind_Ok in H as ([obj eaten] & Hparse & H).
  destruct (eaten =? 0) eqn:E.
  - apply Nat.eqb_eq in E as ->. injection H as <-. split; [done|]. by exists ch, obj.
  - apply bind_Ok in H as (ch' & _ & H). discriminate.
Qed.

Lemma dict_body_break_zero parse json (i : nat) (res res' : JsonDict) :
  dict_body parse json (i, res) = Ok (Break, (0, res')) →
  res' = res ∧ ∃ ch key_obj key_eaten,
    json !! i = Some ch ∧ ch ≠ "}"%char ∧
    parse (substr json i) = Ok (key_obj, key_eaten) ∧
    (key_eaten = 0 ∨
     key_eaten ≠ 0 ∧ (∀ key, key_obj ≠ JString key) ∨
     key_eaten ≠ 0 ∧ ∃ key ch' v,
       key_obj = JString key ∧ json !! (i + key_eaten) = Some ch' ∧
       parse (substr json (if (ch' =? ":")%char then i + key_eaten + 1 else i + key_eaten))
         = Ok (v, 0)).
Proof.
  intros H. unfold dict_body in H.
  apply bind_Ok in H as (ch & Hat & H). apply at_Ok in Hat.
  destruct (ch =? "}")%char eqn:Ech; [injection H as H _; lia|].
  apply Ascii.eqb_neq in Ech.
  apply bind_Ok in H as ([key_obj key_eaten] & Hparse & H).
  destruct (key_eaten =? 0) eqn:E.
  { apply Nat.eqb_eq in E as ->. injection H as <-. split; [done|].
    exists ch, key_obj, 0. auto. }
  apply Nat.eqb_neq in E.
  destruct key_obj as [| | | |key| |];
    try (injection H as <-; split; [done|];
         eexists ch, _, key_eaten; split_and!; [done..|]; right; left; by split).
  apply bind_Ok in H as (ch1 & Hat1 & H). apply at_Ok in Hat1.
  apply bind_Ok in H as ([val_obj val_eaten] & Hval & H).
  destruct (val_eaten =? 0) eqn:E'.
  - apply Nat.eqb_eq in E' as ->. injection H as <-. split; [done|].
    exists ch, (JString key), key_eaten. split_and!; [done..|]. right; right.
    split; [done|]. by exists key, ch1, val_obj.
  - apply bind_Ok in H as (ch2 & _ & H). discriminate.
Qed.

(** * The claims of the specification *)

(** C1, as the code has it: when the parse of an element of a list, or of a
    key or a value of a dictionary, consumes nothing, the enclosing [Parse]
    returns the count 0; the value that comes with it is the list or the
    dictionary of what had been collected until then. *)
Theorem C1_failed_subparse_aborts (rest : string_view) :
  (∀ res, list_element_fails ("["%char :: rest) res →
          Parse ("["%char :: rest) = Ok (JList res, 0)) ∧
  (∀ res, dict_key_fails ("{"%char :: rest) res ∨ dict_value_fails ("{"%char :: rest) res →
          Parse ("{"%char :: rest) = Ok (JDict res, 0)).
Proof.
  split.
  - intros res (i & ch & v & Hr & Hi & Hch & Hp).
    rewrite (Parse_list_reach rest _ Hr).
    rewrite (run_loop_break _ _ (i, res) (0, res)); [reflexivity|..].
    + by apply lookup_lt_Some in Hi.
    + unfold list_body. rewrite (proj2 (at_Ok _ _ _) Hi). simpl.
      apply Ascii.eqb_neq in Hch. rewrite Hch, Hp. reflexivity.
  - intros res [(i & ch & v & Hr & Hi & Hch & Hp)
               |(i & ch & key & key_eaten & ch' & v & Hr & Hi & Hch & Hk & Hne & Hi' & Hp)].
    + rewrite (Parse_dict_reach rest _ Hr).
      rewrite (run_loop_break _ _ (i, res) (0, res)); [reflexivity|..].
      * by apply lookup_lt_Some in Hi.
      * unfold dict_body. rewrite (proj2 (at_Ok _ _ _) Hi). simpl.
        apply Ascii.eqb_neq in Hch. rewrite Hch, Hp. reflexivity.
    + rewrite (Parse_dict_reach rest _ Hr).
      rewrite (run_loop_break _ _ (i, res) (0, res)); [reflexivity|..].
      * by apply lookup_lt_Some in Hi.
      * unfold dict_body. rewrite (proj2 (at_Ok _ _ _) Hi). simpl.
        apply Ascii.eqb_neq in Hch. rewrite Hch, Hk. simpl.
        apply Nat.eqb_neq in Hne. rewrite Hne.
        rewrite (proj2 (at_Ok _ _ _) Hi'). simpl.
        simpl in Hp. destruct (ch' =? ":")%char; rewrite Hp; reflexivity.
Qed.

Lemma C1_failed_subparse_aborts_witness :
  Parse (lit "[1,x]") = Ok (JList [JInt 1], 0) ∧
  Parse (lit "{x}") = Ok (JDict ∅, 0) ∧
  Parse (lit "{'a':x}") = Ok (JDict ∅, 0).
Proof.
  split; [|split].
  - apply (proj1 (C1_failed_subparse_aborts (lit "1,x]")) [JInt 1]).
    exists 3, "x"%char, JNull. split; [|by vm_compute].
    eapply rtc_l; [|apply rtc_refl]. split; [simpl; lia|vm_compute; reflexivity].
  - apply (proj2 (C1_failed_subparse_aborts (lit "x}")) ∅). left.
    exists 1, "x"%char, JNull. split; [apply rtc_refl|by vm_compute].
  - apply (proj2 (C1_failed_subparse_aborts (lit "'a':x}")) ∅). right.
    exists 1, DQUOTE, "a"%string, 3, ":"%char, JNull.
    split; [apply rtc_refl|]. repeat split; try discriminate; vm_compute; reflexivity.
Defined.

(** C1 as stated fails: in ["[1,x]"] the parse of the second element
    consumes nothing, and the value returned with the count 0 is the list of
    the first element, not Null. *)
Lemma C1_counterexample :
  list_element_fails (lit "[1,x]") [JInt 1] ∧
  ¬ ∃ n, Parse (lit "[1,x]") = Ok (JNull, n).
Proof.
  split; [exact list_element_fails_example|].
  intros [n H]. vm_compute in H. discriminate.
Qed.

(** C2, as the code has it: when the loop of a list or of a dictionary comes
    to the end of the input without having met the closing bracket, [Parse]
    does not fail: it returns what was collected and the length of the
    input as the count.  The count 0 is returned for a list only when the
    parse of an element consumes nothing, and for a dictionary only when the
    parse of a key or of a value consumes nothing or a key is not a
    string. *)
Theorem C2_end_of_input_ends_the_loop (rest : string_view) :
  (∀ i res, list_reach ("["%char :: rest) (i, res) → length ("["%char :: rest) ≤ i →
            Parse ("["%char :: rest) = Ok (JList res, length ("["%char :: rest))) ∧
  (∀ i res, dict_reach ("{"%char :: rest) (i, res) → length ("{"%char :: rest) ≤ i →
            Parse ("{"%char :: rest) = Ok (JDict res, length ("{"%char :: rest))) ∧
  (∀ v, Parse ("["%char :: rest) = Ok (v, 0) →
        ∃ res, v = JList res ∧ list_element_fails ("["%char :: rest) res) ∧
  (∀ v, Parse ("{"%char :: rest) = Ok (v, 0) →
        ∃ res, v = JDict res ∧
               (dict_key_fails ("{"%char :: rest) res ∨
                dict_key_not_string ("{"%char :: rest) res ∨
                dict_value_fails ("{"%char :: rest) res)).
Proof.
  split; [|split; [|split]].
  - intros i res Hr Hi.
    rewrite (Parse_list_reach rest _ Hr), run_loop_exit by exact Hi.
    apply list_reach_bounds in Hr; [|done]. simpl in *. do 2 f_equal. lia.
  - intros i res Hr Hi.
    rewrite (Parse_dict_reach rest _ Hr), run_loop_exit by exact Hi.
    apply dict_reach_bounds in Hr; [|done]. simpl in *. do 2 f_equal. lia.
  - intros v H. rewrite Parse_list in H.
    apply bind_Ok in H as ([i res] & Hrun & H). injection H as <- ->.
    exists res. split; [done|].
    apply for_loop_zero in Hrun as ([i res'] & Hr & _ & Hb);
      [|apply list_body_progress|simpl; lia|done].
    apply list_body_break_zero in Hb as (-> & ch & v & Hi & Hch & Hp).
    by exists i, ch, v.
  - intros v H. rewrite Parse_dict in H.
    apply bind_Ok in H as ([i res] & Hrun & H). injection H as <- ->.
    exists res. split; [done|].
    apply for_loop_zero in Hrun as ([i res'] & Hr & _ & Hb);
      [|apply dict_body_progress|simpl; lia|done].
    apply dict_body_break_zero
      in Hb as (-> & ch & key_obj & key_eaten & Hi & Hch & Hp &
                [->|[[Hne Hns]|(Hne & key & ch' & v & -> & Hi' & Hv)]]).
    + left. by exists i, ch, key_obj.
    + right; left. by exists i, ch, key_obj, key_eaten.
    + right; right. by exists i, ch, key, key_eaten, ch', v.
Qed.

Lemma C2_end_of_input_ends_the_loop_witness :
  Parse (lit "[") = Ok (JList [], 1) ∧ Parse (lit "{") = Ok (JDict ∅, 1) ∧
  Parse (lit "[1,") = Ok (JList [JInt 1], 3).
Proof.
  split; [|split].
  - apply (proj1 (C2_end_of_input_ends_the_loop []) 1 []); [apply rtc_refl|simpl; lia].
  - apply (proj1 (proj2 (C2_end_of_input_ends_the_loop [])) 1 ∅); [apply rtc_refl|simpl; lia].
  - apply (proj1 (C2_end_of_input_ends_the_loop (lit "1,")) 3 [JInt 1]); [|simpl; lia].
    eapply rtc_l; [|apply rtc_refl]. split; [simpl; lia|vm_compute; reflexivity].
Defined.

(** C2 as stated fails: the input that is a lone opening bracket is
    accepted with the count 1. *)
Lemma C2_counterexample : ¬ ∃ v, Parse (lit "[") = Ok (v, 0).
Proof. intros [v H]. vm_compute in H. discriminate. Qed.

(** C3, as the code has it: when the text begins with a digit, or with a
    minus sign and a digit, the numeral branch works on the longest prefix
    of the shape of the pattern, which is not empty; the count is the length
    of that prefix when [TryParseNum] turns it into an [int] or else into a
    [double], and the result is (Null, 0) when it can do neither.  When the
    text begins with a sign and holds no digit, no prefix has the shape of
    the pattern and the result is (Null, 0).  Nothing is said of a text
    that begins with a plus sign and a digit, nor of one that begins with a
    sign and has its first digit further on. *)
Theorem C3_numeral_prefix (json : string_view) :
  (numeral_start json →
   ∃ n, 0 < n ∧ longest_numeral_prefix json n ∧
        Parse json =
          match TryParseNum Z (take n json) with
          | Some num => Ok (JInt num, n)
          | None =>
              match TryParseNum double (take n json) with
              | Some num => Ok (JDouble num, n)
              | None => Ok (JNull, 0)
              end
          end) ∧
  (sign_start json → Forall (λ c, is_digit c = false) json →
   (∀ m, ¬ numeral_shape (take m json)) ∧ Parse json = Ok (JNull, 0)).
Proof.
  split.
  - intros Hstart. destruct (numeral_start_match json Hstart) as (n & Hn & Hpos).
    exists n. split; [assumption|]. split; [by apply num_re_at_longest|].
    destruct (num_re_at_sound json n Hn) as [Hle _].
    destruct json as [|c rest]; [done|].
    assert (Hbr : is_digit c || (c =? "+")%char || (c =? "-")%char = true).
    { destruct Hstart as [->|[-> _]]; reflexivity. }
    rewrite Parse_not_whitespace
      by (destruct Hstart as [?|[-> _]]; [by apply digit_not_whitespace|reflexivity]).
    unfold Parse_branches. rewrite Hbr. unfold parse_num.
    rewrite (regex_search_at_0 _ n Hn). unfold match_str. cbn [fst snd].
    rewrite drop_0, length_take_le by assumption. reflexivity.
  - intros Hstart Hnd. split.
    + intros m. by apply num_re_at_None, no_digit_no_match_here.
    + destruct json as [|c rest]; [done|]. simpl in Hstart.
      rewrite Parse_not_whitespace by (by apply sign_not_whitespace).
      unfold Parse_branches.
      replace (is_digit c || (c =? "+")%char || (c =? "-")%char) with true
        by (unfold is_sign in Hstart; by rewrite <- Bool.orb_assoc, Hstart, Bool.orb_true_r).
      unfold parse_num. by rewrite no_digit_no_match.
Qed.

Lemma C3_numeral_prefix_witness :
  ∃ n, 0 < n ∧ longest_numeral_prefix (lit "-12.5e3,7") n ∧
       Parse (lit "-12.5e3,7") =
         match TryParseNum Z (take n (lit "-12.5e3,7")) with
         | Some num => Ok (JInt num, n)
         | None =>
             match TryParseNum double (take n (lit "-12.5e3,7")) with
             | Some num => Ok (JDouble num, n)
             | None => Ok (JNull, 0)
             end
         end.
Proof.
  apply (proj1 (C3_numeral_prefix (lit "-12.5e3,7"))).
  right. split; [reflexivity|]. eexists _, _. split; reflexivity.
Defined.

(** C3 as stated fails: the longest prefix of ["1e999"] of the shape of the
    pattern is the whole of it, five characters, and the count returned is
    not 5: the text is neither an [int] nor in the range of [double], and
    the result is (Null, 0). *)
Lemma C3_counterexample :
  longest_numeral_prefix (lit "1e999") 5 ∧
  Parse (lit "1e999") = Ok (JNull, 0) ∧
  ¬ ∃ v, Parse (lit "1e999") = Ok (v, 5).
Proof.
  split; [by apply num_re_at_longest|].
  split; [vm_compute; reflexivity|].
  intros [v H]. vm_compute in H. discriminate.
Qed.

(** [std::regex_search] is not anchored: when a sign that no digit follows
    opens the text, the match is found further on, and its length is
    returned as the count although no prefix has the shape of the
    pattern. *)
Remark regex_search_not_anchored :
  regex_search (lit "-a1") = Some (2, 1) ∧
  Parse (lit "-a1") = Ok (JInt 1, 1) ∧
  ∀ m, ¬ numeral_shape (take m (lit "-a1")).
Proof.
  split; [reflexivity|]. split; [vm_compute; reflexivity|].
  intros m. by apply num_re_at_None.
Qed.

(** C4 (the code differs): the NUL written in the string literal of line 89
    is not in the set that [find_first_not_of] receives, which holds the six
    characters before it, so a leading NUL is not skipped: [Parse] of one or
    more NUL characters followed by any text is (Null, 0), also when [Parse]
    accepts the text, as it does ["1"]. *)
Theorem C4_NUL_is_not_skipped :
  c_str whitespace_literal = [SP; LF; CR; TAB; VT; FF] ∧
  mem_chars (c_str whitespace_literal) NUL = false ∧
  Parse (lit "1") = Ok (JInt 1, 1) ∧
  Parse (NUL :: lit "1") = Ok (JNull, 0) ∧
  ∀ (k : nat) (s : string_view), Parse (repeat NUL (S k) ++ s) = Ok (JNull, 0).
Proof.
  split; [reflexivity|]. split; [reflexivity|]. split; [vm_compute; reflexivity|].
  split; [vm_compute; reflexivity|].
  intros k s. simpl. by rewrite Parse_not_whitespace.
Qed.

(** C5: for every input [s] that [Parse] accepts with a nonzero count and
    every nonempty [w] made of spaces, line feeds, carriage returns and
    tabs, [Parse (w ++ s)] returns the value of [Parse s] and a count larger
    by exactly the length of [w]. *)
Theorem C5_whitespace_prefix (s w : string_view) (v : JsonObject) (n : nat) :
  Parse s = Ok (v, n) → 0 < n → w ≠ [] → Forall (λ c, c ∈ [SP; LF; CR; TAB]) w →
  Parse (w ++ s) = Ok (v, n + length w).
Proof.
  intros Hs Hn Hw Hall.
  assert (Hws : Forall (λ c, mem_chars (c_str whitespace_literal) c = true) w).
  { eapply Forall_impl; [exact Hall|]. intros c Hc. simpl in Hc.
    repeat (apply elem_of_cons in Hc as [->|Hc]; [reflexivity|]).
    by apply elem_of_nil in Hc. }
  destruct (find_first_not_of (c_str whitespace_literal) s) as [off|] eqn:Hoff.
  - rewrite (Parse_skip s off Hoff) in Hs.
    apply bind_Ok in Hs as ([obj eaten] & Hsub & Heq). injection Heq as -> <-.
    rewrite (Parse_skip (w ++ s) (length w + off)).
    + unfold substr in *. rewrite <- drop_drop, drop_app_length, Hsub. simpl.
      f_equal. f_equal. lia.
    + rewrite find_first_not_of_app, Hoff by assumption. reflexivity.
  - rewrite (Parse_all_whitespace s Hoff) in Hs. injection Hs as <- <-. lia.
Qed.

Lemma C5_whitespace_prefix_witness :
  Parse ([SP; LF; CR; TAB] ++ lit "[1, 2]") = Ok (JList [JInt 1; JInt 2], 6 + 4).
Proof.
  apply (C5_whitespace_prefix (lit "[1, 2]") [SP; LF; CR; TAB]).
  - vm_compute. reflexivity.
  - lia.
  - discriminate.
  - repeat constructor.
Defined.

(** C6: an input that starts with a double quote and has no unescaped
    double quote after it is not rejected: [Parse] returns the string of all
    the characters after the quote, escapes decoded, and a count equal to the
    length of the input. *)
Theorem C6_unterminated_string (rest : string_view) :
  has_closing_quote false rest = false →
  Parse (DQUOTE :: rest) = Ok (JString (decode false rest), length (DQUOTE :: rest)).
Proof.
  intros H. rewrite Parse_not_whitespace by reflexivity.
  unfold Parse_branches. change (is_digit DQUOTE) with false. simpl.
  rewrite drop_0. by rewrite (string_loop_unterminated Raw rest 1 "" H).
Qed.

Lemma C6_unterminated_string_witness :
  Parse (DQUOTE :: list_ascii_of_string "\n\r\0\t\v\f\b\a\q\") =
    Ok (JString (String "010" (String "013" (String "000" (String "009"
          (String "011" (String "012" (String "008" (String "007"
          (String "q" ""))))))))), 20).
Proof.
  apply (C6_unterminated_string (list_ascii_of_string "\n\r\0\t\v\f\b\a\q\")).
  reflexivity.
Defined.

(** C7: the literal with the key [a] twice gives a dictionary whose only
    entry maps [a] to the first value; [try_emplace] leaves a dictionary
    that has the key as it is; an entry present at some point of the
    dictionary loop is there, unchanged, in every later state of the loop,
    whatever that loop returns; so an entry that the loop of [Parse] has
    made is in the dictionary that [Parse] returns, whatever the same key is
    given later. *)
Theorem C7_first_write_wins :
  (∃ m : JsonDict,
     Parse (lit "{'a':1,'a':2}") = Ok (JDict m, 13) ∧
     m !! "a" = Some (JInt 1) ∧ m = {[ "a" := JInt 1 ]}) ∧
  (∀ (key : string) (val val0 : JsonObject) (res : JsonDict),
     res !! key = Some val0 → try_emplace key val res = res) ∧
  (∀ parse json n (st st' : nat * JsonDict) (key : string) (val0 : JsonObject),
     for_loop (length json) (dict_body parse json) n st = Ok st' →
     st.2 !! key = Some val0 → st'.2 !! key = Some val0) ∧
  (∀ (rest : string_view) (i n : nat) (res m : JsonDict) (key : string) (val0 : JsonObject),
     dict_reach ("{"%char :: rest) (i, res) → res !! key = Some val0 →
     Parse ("{"%char :: rest) = Ok (JDict m, n) → m !! key = Some val0).
Proof.
  assert (Hloop : ∀ parse json n (st st' : nat * JsonDict) (key : string) (val0 : JsonObject),
     for_loop (length json) (dict_body parse json) n st = Ok st' →
     st.2 !! key = Some val0 → st'.2 !! key = Some val0).
  { intros parse json n. induction n as [|n IH]; intros st st' key val0 H Hk; simpl in H.
    - destruct (st.1 <? length json); [discriminate|congruence].
    - destruct (st.1 <? length json); [|congruence].
      apply bind_Ok in H as ([c st1] & Hb & H). simpl in H.
      pose proof (dict_body_keeps _ _ _ _ _ _ _ Hb Hk) as Hk1.
      destruct c; [by eapply IH|congruence]. }
  split; [|split; [|split]].
  - eexists. split; [vm_compute; reflexivity|]. split; vm_compute; reflexivity.
  - apply try_emplace_present.
  - exact Hloop.
  - intros rest i n res m key val0 Hr Hk HP.
    rewrite (Parse_dict_reach rest _ Hr) in HP.
    apply bind_Ok in HP as ([i' res'] & Hrun & HP). injection HP as <- <-.
    apply (Hloop _ _ _ _ _ key val0) in Hrun; done.
Qed.

Lemma C7_first_write_wins_witness :
  try_emplace "a" (JInt 2) {[ "a" := JInt 1 ]} = {[ "a" := JInt 1 ]}.
Proof.
  apply (proj1 (proj2 C7_first_write_wins) "a" (JInt 2) (JInt 1)).
  vm_compute. reflexivity.
Defined.

(** C8: the list literal of [main] parses, to the end, into five elements,
    the second a list of three; the bracket inside the quoted string ends
    neither list. *)
Theorem C8_nested_list_scenario :
  Parse (lit "[42,[222,'dasda]',15],12,3,4]") =
    Ok (JList [JInt 42; JList [JInt 222; JString "dasda]"; JInt 15];
               JInt 12; JInt 3; JInt 4],
        length (lit "[42,[222,'dasda]',15],12,3,4]")).
Proof. vm_compute. reflexivity. Qed.

(** C9 (the code differs): after an element, a key or a value that ends at
    the end of the slice, the comparison with the comma or the colon reads
    [json[json.size()]]. *)
Theorem C9_lookahead_reads_past_the_end :
  at_ (lit "[1") (length (lit "[1")) = OutOfBounds ∧
  list_body Parse (lit "[1") (1, []) = OutOfBounds ∧
  Parse (lit "[1") = OutOfBounds ∧
  Parse (lit "{'a'") = OutOfBounds ∧
  Parse (lit "{'a':1") = OutOfBounds.
Proof. repeat split; vm_compute; reflexivity. Qed.

(** C10: [Parse] returns on every input.  A recursion budget larger than
    the length of the text is never exhausted, and all such budgets give
    the same result, which satisfies the recursive equation of the source;
    the recursive calls are made on [substr json k] with [1 ≤ k] only, which
    is shorter than [json]; an iteration of the list or dictionary loop that
    continues moves the position forward, and a sub-parse that consumes
    nothing leaves the loop at once. *)
Theorem C10_Parse_terminates :
  (∀ (json : string_view) (fuel : nat),
     length json < fuel →
     Parse_fuel fuel json = Parse json ∧ Parse json ≠ OutOfFuel) ∧
  (∀ json : string_view, Parse json = Parse_body Parse json) ∧
  (∀ parse parse' (json : string_view),
     agree_on_suffixes parse parse' json →
     Parse_body parse json = Parse_body parse' json) ∧
  (∀ (json : string_view) (k : nat),
     json ≠ [] → 1 ≤ k → length (substr json k) < length json) ∧
  (∀ parse (json : string_view),
     progresses (list_body parse json) ∧ progresses (dict_body parse json)) ∧
  (∀ parse (json : string_view) (i : nat) (ch : ascii) (v : JsonObject),
     json !! i = Some ch → parse (substr json i) = Ok (v, 0) →
     (ch ≠ "]"%char → ∀ res, list_body parse json (i, res) = Ok (Break, (0, res))) ∧
     (ch ≠ "}"%char → ∀ res, dict_body parse json (i, res) = Ok (Break, (0, res)))).
Proof.
  split; [|split; [|split; [|split; [|split]]]].
  - intros json fuel H. split; [|apply Parse_not_OutOfFuel].
    apply Parse_fuel_stable; lia.
  - apply Parse_unfold.
  - apply Parse_body_ext.
  - apply length_substr.
  - intros parse json. split; [apply list_body_progress|apply dict_body_progress].
  - intros parse json i ch v Hi Hp.
    split; intros Hch res; [by eapply list_body_zero|by eapply dict_body_zero].
Qed.

Lemma C10_Parse_terminates_witness :
  Parse_fuel 40 (lit "[[1,{'k':[]}],2]") = Parse (lit "[[1,{'k':[]}],2]") ∧
  Parse (lit "[[1,{'k':[]}],2]") ≠ OutOfFuel.
Proof.
  apply (proj1 C10_Parse_terminates (lit "[[1,{'k':[]}],2]") 40).
  simpl. lia.
Defined.

(** * Further properties of the code *)

(** ** The count is within the text *)

Lemma num_re_at_le (s : string_view) (n : nat) : num_re_at s = Some n → n ≤ length s.
Proof. intros H. by apply num_re_at_sound in H as [H _]. Qed.

Lemma regex_search_le (s : string_view) (m : nat * nat) :
  regex_search s = Some m → m.1 + m.2 ≤ length s.
Proof.
  revert m. induction s as [|c s IH]; intros m H; cbn [regex_search] in H.
  - destruct (num_re_at []) as [n|] eqn:E; [|discriminate].
    injection H as <-. apply num_re_at_le in E. simpl in *. lia.
  - destruct (num_re_at (c :: s)) as [n|] eqn:E.
    + injection H as <-. apply num_re_at_le in E. simpl in *. lia.
    + destruct (regex_search s) as [[p n]|]; [|discriminate].
      injection H as <-. specialize (IH _ eq_refl). simpl in *. lia.
Qed.

Lemma parse_num_le (json : string_view) (v : JsonObject) (n : nat) :
  parse_num json = Ok (v, n) → n ≤ length json.
Proof.
  unfold parse_num. destruct (regex_search json) as [m|] eqn:E.
  - apply regex_search_le in E.
    assert (length (match_str json m) ≤ length json).
    { unfold match_str. rewrite length_take, length_drop. lia. }
    repeat case_match; intros [= <- <-]; lia.
  - intros [= <- <-]. lia.
Qed.

Lemma string_loop_le (ph : phase) (rest : string_view) (i : nat) (str : string) :
  i ≤ (string_loop ph rest i str).2 ≤ i + length rest.
Proof.
  revert ph i str. induction rest as [|ch rest IH]; intros ph i str; simpl; [lia|].
  destruct ph.
  - destruct (ch =? BACKSLASH)%char.
    + specialize (IH Escaped (S i) str). lia.
    + destruct (ch =? DQUOTE)%char; simpl; [lia|].
      specialize (IH Raw (S i) (str +:+ String ch "")). lia.
  - specialize (IH Raw (S i) (str +:+ String (UnescapedChar ch) "")). lia.
Qed.

Lemma for_loop_le {R : Type} (size : nat) (body : nat * R → outcome (ctl * (nat * R)))
    (n : nat) (st stf : nat * R) :
  (∀ st c st', body st = Ok (c, st') → st'.1 ≤ size) → st.1 ≤ size →
  for_loop size body n st = Ok stf → stf.1 ≤ size.
Proof.
  intros Hb. revert st. induction n as [|n IH]; intros st Hst H; simpl in H.
  - destruct (st.1 <? size); [discriminate|congruence].
  - destruct (st.1 <? size); [|congruence].
    apply bind_Ok in H as ([c st1] & Hb1 & H). simpl in H.
    pose proof (Hb _ _ _ Hb1). destruct c; [by eapply IH|congruence].
Qed.

Lemma list_body_le parse json st c st' :
  list_body parse json st = Ok (c, st') → st'.1 ≤ length json.
Proof.
  destruct c; [apply list_body_continue_le|].
  destruct st as [i res]. intros H. unfold list_body in H.
  apply bind_Ok in H as (ch & Hat & H). apply at_lt in Hat.
  destruct (ch =? "]")%char; [injection H as <-; simpl; lia|].
  apply bind_Ok in H as ([obj eaten] & _ & H).
  destruct (eaten =? 0); [injection H as <-; simpl; lia|].
  apply bind_Ok in H as (ch' & _ & H). discriminate.
Qed.

Lemma dict_body_le parse json st c st' :
  dict_body parse json st = Ok (c, st') → st'.1 ≤ length json.
Proof.
  destruct c; [apply dict_body_continue_le|].
  destruct st as [i res]. intros H. unfold dict_body in H.
  apply bind_Ok in H as (ch & Hat & H). apply at_lt in Hat.
  destruct (ch =? "}")%char; [injection H as <-; simpl; lia|].
  apply bind_Ok in H as ([key_obj key_eaten] & _ & H).
  destruct (key_eaten =? 0); [injection H as <-; simpl; lia|].
  destruct key_obj; try (injection H as <-; simpl; lia).
  apply bind_Ok in H as (ch1 & _ & H).
  apply bind_Ok in H as ([val_obj val_eaten] & _ & H).
  destruct (val_eaten =? 0); [injection H as <-; simpl; lia|].
  apply bind_Ok in H as (ch2 & _ & H). discriminate.
Qed.

Lemma find_first_not_of_lt set json off :
  find_first_not_of set json = Some off → off < length json.
Proof.
  revert off. induction json as [|c json IH]; intros off H; simpl in H; [discriminate|].
  destruct (mem_chars set c); [|injection H as <-; simpl; lia].
  destruct (find_first_not_of set json) as [k|]; [|discriminate].
  injection H as <-. specialize (IH _ eq_refl). simpl. lia.
Qed.

Lemma Parse_fuel_le (fuel : nat) (json : string_view) (v : JsonObject) (n : nat) :
  Parse_fuel fuel json = Ok (v, n) → n ≤ length json.
Proof.
  revert json v n. induction fuel as [|fuel IH]; intros json v n H; [discriminate|].
  simpl in H. unfold Parse_body in H. destruct json as [|c0 rest]; [injection H as _ <-; lia|].
  set (json := c0 :: rest) in *.
  destruct (find_first_not_of _ json) as [[|off]|] eqn:Hoff.
  2: { apply bind_Ok in H as ([obj eaten] & Hsub & H). injection H as _ <-.
       apply IH in Hsub. apply find_first_not_of_lt in Hoff.
       unfold substr in Hsub. rewrite length_drop in Hsub. lia. }
  all: unfold Parse_branches in H.
  all: destruct (_ || _); [by apply parse_num_le in H|].
  all: destruct (c0 =? DQUOTE)%char.
  all: try (pose proof (string_loop_le Raw (drop 1 json) 1 "") as Hs;
            destruct (string_loop Raw (drop 1 json) 1 "") as [str i];
            injection H as _ <-; simpl in Hs; rewrite drop_0 in Hs; simpl; lia).
  all: destruct (c0 =? "[")%char.
  all: try (apply bind_Ok in H as ([i res] & Hl & H); injection H as _ <-;
            apply for_loop_le in Hl; [exact Hl|apply list_body_le|simpl; lia]).
  all: destruct (c0 =? "{")%char; [|injection H as _ <-; lia].
  all: apply bind_Ok in H as ([i res] & Hl & H); injection H as _ <-;
       apply for_loop_le in Hl; [exact Hl|apply dict_body_le|simpl; lia].
Qed.

(** X1: the count that [Parse] returns never exceeds the length of the
    text. *)
Theorem X1_count_within_text (json : string_view) (v : JsonObject) (n : nat) :
  Parse json = Ok (v, n) → n ≤ length json.
Proof. apply Parse_fuel_le. Qed.

Lemma X1_count_within_text_witness : 8 ≤ length (lit "[1,'ab'] tail").
Proof.
  apply (X1_count_within_text (lit "[1,'ab'] tail")
           (JList [JInt 1; JString "ab"]) 8).
  vm_compute. reflexivity.
Defined.

(** ** White space *)

Lemma is_space_mem (c : ascii) :
  is_space c ↔ mem_chars (c_str whitespace_literal) c = true.
Proof. by rewrite mem_chars_true, whitespace_chars. Qed.

Lemma Forall_is_space_mem (w : string_view) :
  Forall is_space w → Forall (λ c, mem_chars (c_str whitespace_literal) c = true) w.
Proof. intros H. eapply Forall_impl; [exact H|]. intros c. apply is_space_mem. Qed.

(** Leading white space before a character that is not white space. *)
Lemma Parse_leading_space (w : string_view) (c : ascii) (rest : string_view) :
  w ≠ [] → Forall is_space w → ¬ is_space c →
  Parse (w ++ c :: rest) =
    '(obj, eaten) ← Parse (c :: rest); Ok (obj, eaten + length w).
Proof.
  intros Hne Hw Hc.
  rewrite (Parse_skip (w ++ c :: rest) (length w)).
  - unfold substr. by rewrite drop_app_length.
  - rewrite find_first_not_of_app by by apply Forall_is_space_mem.
    cbn [find_first_not_of].
    destruct (mem_chars _ c) eqn:E; [by apply is_space_mem in E|].
    simpl. by rewrite Nat.add_0_r.
Qed.

(** X2: a text made only of the six white-space characters, the empty text
    included, is rejected with (Null, 0). *)
Theorem X2_only_white_space (json : string_view) :
  Forall is_space json → Parse json = Ok (JNull, 0).
Proof.
  intros H. apply Parse_all_whitespace, find_first_not_of_None.
  by apply Forall_is_space_mem.
Qed.

Lemma X2_only_white_space_witness : Parse [SP; TAB; LF; VT; FF; CR] = Ok (JNull, 0).
Proof. apply (X2_only_white_space [SP; TAB; LF; VT; FF; CR]). repeat constructor. Defined.

(** X3: white space before a text that does not begin with white space adds
    its length to the count and changes nothing else, also when the count
    of the text is 0: a failure that follows white space comes back with a
    count that is not 0. *)
Theorem X3_white_space_hides_failure (w : string_view) (c : ascii) (rest : string_view)
    (v : JsonObject) (n : nat) :
  w ≠ [] → Forall is_space w → ¬ is_space c →
  Parse (c :: rest) = Ok (v, n) →
  Parse (w ++ c :: rest) = Ok (v, n + length w) ∧ 0 < n + length w.
Proof.
  intros Hne Hw Hc H. rewrite Parse_leading_space, H by assumption.
  split; [reflexivity|]. destruct w; [done|simpl; lia].
Qed.

Lemma X3_white_space_hides_failure_witness :
  Parse ([SP; SP] ++ lit "x]") = Ok (JNull, 0 + 2) ∧ 0 < 0 + 2.
Proof.
  apply (X3_white_space_hides_failure [SP; SP] "x" (lit "]") JNull 0).
  - discriminate.
  - repeat constructor.
  - unfold is_space. intros H. repeat (apply elem_of_cons in H as [H|H]; [discriminate|]).
    by apply elem_of_nil in H.
  - vm_compute. reflexivity.
Defined.

(** ** String literals that are closed *)

Lemma string_loop_closed (ph : phase) (body tail : string_view) (i : nat) (str : string) :
  has_closing_quote (escaped_phase ph) body = false →
  pending_escape (escaped_phase ph) body = false →
  string_loop ph (body ++ DQUOTE :: tail) i str
    = (str +:+ decode (escaped_phase ph) body, i + length body + 1).
Proof.
  revert ph i str. induction body as [|ch body IH]; intros ph i str Hq He; simpl in *.
  - destruct ph; [|discriminate]. simpl.
    rewrite append_empty_r. f_equal. lia.
  - destruct ph; simpl in *.
    + destruct (ch =? BACKSLASH)%char eqn:Eb.
      * destruct (ch =? DQUOTE)%char; [discriminate|].
        rewrite (IH Escaped) by assumption. simpl. f_equal. lia.
      * destruct (ch =? DQUOTE)%char; [discriminate|].
        rewrite (IH Raw) by assumption. simpl. rewrite append_snoc. f_equal. lia.
    + rewrite (IH Raw) by assumption. simpl.
      rewrite append_snoc, UnescapedChar_table. f_equal. lia.
Qed.

Lemma Parse_closed_string (body tail : string_view) :
  has_closing_quote false body = false → pending_escape false body = false →
  Parse (DQUOTE :: body ++ DQUOTE :: tail)
    = Ok (JString (decode false body), length body + 2).
Proof.
  intros Hq He. rewrite Parse_not_whitespace by reflexivity.
  unfold Parse_branches. change (is_digit DQUOTE) with false. simpl.
  rewrite drop_0, (string_loop_closed Raw body tail 1 "" Hq He). simpl.
  do 2 f_equal. lia.
Qed.

Lemma plain_text_decode (body : string_view) :
  Forall (λ c, c ≠ BACKSLASH ∧ c ≠ DQUOTE) body →
  has_closing_quote false body = false ∧ pending_escape false body = false ∧
  decode false body = string_of_list_ascii body.
Proof.
  induction 1 as [|c body [Hb Hq] _ (IH1 & IH2 & IH3)]; simpl; [done|].
  apply Ascii.eqb_neq in Hb, Hq. rewrite Hb, Hq. by rewrite IH3.
Qed.

(** X4: a string literal with its closing quote is parsed into the decoded
    text between the quotes, with a count that ends just after the closing
    quote; what follows the literal plays no part. *)
Theorem X4_closed_string (body tail : string_view) :
  has_closing_quote false body = false → pending_escape false body = false →
  Parse (DQUOTE :: body ++ DQUOTE :: tail)
    = Ok (JString (decode false body), length body + 2).
Proof. apply Parse_closed_string. Qed.

Lemma X4_closed_string_witness :
  Parse (DQUOTE :: list_ascii_of_string "\n\r\0\t\v\f\b\a\\" ++ DQUOTE :: lit ",1]")
    = Ok (JString (String "010" (String "013" (String "000" (String "009"
            (String "011" (String "012" (String "008" (String "007"
            (String "092" ""))))))))), 18 + 2).
Proof.
  apply (X4_closed_string (list_ascii_of_string "\n\r\0\t\v\f\b\a\\") (lit ",1]"));
    reflexivity.
Defined.

(** X5: a text without backslash and without double quote, put between
    double quotes, is parsed back into itself. *)
Theorem X5_plain_string_round_trip (body tail : string_view) :
  Forall (λ c, c ≠ BACKSLASH ∧ c ≠ DQUOTE) body →
  Parse (DQUOTE :: body ++ DQUOTE :: tail)
    = Ok (JString (string_of_list_ascii body), length body + 2).
Proof.
  intros H. destruct (plain_text_decode body H) as (Hq & He & <-).
  by apply Parse_closed_string.
Qed.

Lemma X5_plain_string_round_trip_witness :
  Parse (DQUOTE :: list_ascii_of_string "da]sd" ++ DQUOTE :: lit ",15]")
    = Ok (JString "da]sd", 5 + 2).
Proof.
  apply (X5_plain_string_round_trip (list_ascii_of_string "da]sd") (lit ",15]")).
  repeat constructor; discriminate.
Defined.

(** ** Integer literals *)

Lemma span_len_all (p : ascii → bool) (ds : string_view) :
  Forall (λ c, p c = true) ds → span_len p ds = length ds.
Proof.
  intros H. rewrite <- (app_nil_r ds) at 1. rewrite span_len_app by assumption.
  simpl. lia.
Qed.

Lemma numeral_stop_lens (rest : string_view) :
  numeral_stop rest →
  span_len is_digit rest = 0 ∧ frac_len rest = 0 ∧ expo_len rest = 0.
Proof.
  destruct rest as [|c rest]; simpl; [done|].
  intros (Hd & Hp & He). apply Ascii.eqb_neq in Hp. by rewrite Hd, Hp, He.
Qed.

Lemma minus_sign_opt (neg : bool) : opt_sign (minus_sign neg).
Proof. destruct neg; [right; by exists "-"%char|by left]. Qed.

Lemma num_re_at_integer (sign ds rest : string_view) :
  opt_sign sign → digits1 ds → numeral_stop rest →
  num_re_at (sign ++ ds ++ rest) = Some (length sign + length ds).
Proof.
  intros Hsign [Hne Hds] Hrest.
  destruct (numeral_stop_lens rest Hrest) as (H1 & H2 & H3).
  destruct ds as [|d ds']; [done|]. set (ds := d :: ds') in *.
  assert (Hd : is_digit d = true) by (by inversion Hds).
  unfold num_re_at.
  rewrite (sign_len_app sign (ds ++ rest) d (ds' ++ rest) Hsign eq_refl Hd).
  rewrite drop_app_length, span_len_app, H1, Nat.add_0_r by assumption.
  destruct (length ds =? 0) eqn:E; [apply Nat.eqb_eq in E; simpl in E; lia|].
  rewrite drop_app_add, drop_app_length, H2, Nat.add_0_r.
  rewrite drop_app_add, drop_app_length, H3, Nat.add_0_r. reflexivity.
Qed.

Lemma first_digit_not_minus (ds : string_view) :
  digits1 ds → match ds with c :: _ => (c =? "-")%char | [] => false end = false.
Proof.
  intros [Hne Hds]. destruct Hds as [|d ds Hd _]; [done|].
  apply digit_not_sign in Hd. unfold is_sign in Hd.
  by apply Bool.orb_false_iff in Hd as [_ ->].
Qed.

Lemma from_chars_int_literal (neg : bool) (ds : string_view) :
  digits1 ds →
  let m := digits_value ds in
  let v := if neg then (- m)%Z else m in
  from_chars (minus_sign neg ++ ds) =
    if (INT_MIN <=? v)%Z && (v <=? INT_MAX)%Z
    then FromCharsResult errc_ok (length (minus_sign neg ++ ds)) (Some v)
    else FromCharsResult result_out_of_range (length (minus_sign neg ++ ds)) None.
Proof.
  intros Hds. pose proof Hds as [Hne Hall].
  assert (Hlen : (length ds =? 0) = false)
    by (apply Nat.eqb_neq; destruct ds; [done|simpl; lia]).
  unfold from_chars, from_chars_int. destruct neg; simpl minus_sign.
  - cbn [app]. rewrite Ascii.eqb_refl. cbn [drop].
    rewrite drop_0, span_len_all, Hlen, firstn_all by assumption. reflexivity.
  - cbn [app]. rewrite (first_digit_not_minus ds Hds), drop_0.
    rewrite span_len_all, Hlen, firstn_all by assumption. reflexivity.
Qed.

(** ** The [double] stored by [std::from_chars] *)

Lemma scaled_pair (num den e T : Z) :
  (0 ≤ T)%Z → (0 ≤ e + T)%Z →
  ∃ c, (0 < c)%Z ∧
       (num * 2 ^ T = num * 2 ^ Z.max (- e) 0 * c)%Z ∧
       (den * 2 ^ (e + T) = den * 2 ^ Z.max e 0 * c)%Z.
Proof.
  intros HT HeT. destruct (Z.le_gt_cases 0 e) as [He|He].
  - exists (2 ^ T)%Z. rewrite Z.max_r, Z.max_l by lia.
    rewrite Z.pow_add_r by lia. split; [lia|]. split; lia.
  - exists (2 ^ (e + T))%Z. rewrite Z.max_l, Z.max_r by lia.
    split; [apply Z.pow_pos_nonneg; lia|]. split; [|lia].
    replace T with (- e + (e + T))%Z at 1 by lia.
    rewrite Z.pow_add_r by lia. lia.
Qed.

Lemma round_quotient (N D : Z) :
  (0 ≤ N)%Z → (0 < D)%Z →
  let q := (N / D)%Z in
  let r := (N mod D)%Z in
  let m := if (D <? 2 * r)%Z || ((D =? 2 * r)%Z && Z.odd q) then (q + 1)%Z else q in
  (q ≤ m ≤ q + 1)%Z ∧ (2 * Z.abs (N - m * D) ≤ D)%Z ∧
  ((2 * Z.abs (N - m * D) = D)%Z → Z.even m = true).
Proof.
  intros HN HD q r m.
  pose proof (Z.div_mod N D ltac:(lia)) as Hdm.
  pose proof (Z.mod_pos_bound N D HD) as Hr.
  fold q r in Hdm, Hr. 
  assert (Hq1 : (N - (q + 1) * D = r - D)%Z) by lia.
  assert (Hq0 : (N - q * D = r)%Z) by lia.
  subst m.
  destruct (D <? 2 * r)%Z eqn:E1; simpl.
  - apply Z.ltb_lt in E1. rewrite Hq1. split; [lia|]. split; lia.
  - apply Z.ltb_ge in E1. destruct (D =? 2 * r)%Z eqn:E2; simpl.
    + apply Z.eqb_eq in E2. destruct (Z.odd q) eqn:E3.
      * rewrite Hq1. split; [lia|]. split; [lia|]. intros _.
        rewrite Z.even_add, <- Z.negb_odd, E3. reflexivity.
      * rewrite Hq0. split; [lia|]. split; [lia|]. intros _.
        by rewrite <- Z.negb_odd, E3.
    + apply Z.eqb_neq in E2. rewrite Hq0. split; [lia|]. split; lia.
Qed.

Lemma binade (num den M : Z) :
  (0 < num)%Z → (0 < den)%Z →
  let L := (Z.log2 num - Z.log2 den)%Z in
  let ge := if (0 <=? L)%Z then (den * 2 ^ L <=? num)%Z
            else (den <=? num * 2 ^ (- L))%Z in
  let k := if ge then L else (L - 1)%Z in
  (0 ≤ M)%Z → (0 ≤ k + M)%Z →
  (den * 2 ^ (k + M) ≤ num * 2 ^ M < den * 2 ^ (k + 1 + M))%Z.
Proof.
  intros Hnum Hden L ge k HM HkM.
  pose proof (Z.log2_spec num Hnum) as [Ha1 Ha2].
  pose proof (Z.log2_spec den Hden) as [Hb1 Hb2].
  pose proof (Z.log2_nonneg num) as Ha. pose proof (Z.log2_nonneg den) as Hb.
  set (a := Z.log2 num) in *. set (b := Z.log2 den) in *.
  assert (HM0 : (0 < 2 ^ M)%Z) by (apply Z.pow_pos_nonneg; lia).
  assert (Hup : ∀ j, (0 ≤ j + M)%Z → (L + 1 ≤ j)%Z → (num * 2 ^ M < den * 2 ^ (j + M))%Z).
  { intros j Hj HLj.
    assert (2 ^ (a + 1 + M) ≤ 2 ^ b * 2 ^ (j + M))%Z.
    { rewrite <- Z.pow_add_r by lia. apply Z.pow_le_mono_r; lia. }
    assert (num * 2 ^ M < 2 ^ (a + 1 + M))%Z.
    { replace (a + 1 + M)%Z with (Z.succ a + M)%Z by lia.
      rewrite Z.pow_add_r by lia. nia. }
    assert (0 < 2 ^ (j + M))%Z by (apply Z.pow_pos_nonneg; lia). nia. }
  assert (Hlo : ∀ j, (0 ≤ j + M)%Z → (j ≤ L - 1)%Z → (den * 2 ^ (j + M) < num * 2 ^ M)%Z).
  { intros j Hj HLj.
    assert (2 ^ Z.succ b * 2 ^ (j + M) ≤ 2 ^ (a + M))%Z.
    { rewrite <- Z.pow_add_r by lia. apply Z.pow_le_mono_r; lia. }
    assert (2 ^ (a + M) ≤ num * 2 ^ M)%Z.
    { rewrite Z.pow_add_r by lia. nia. }
    assert (0 < 2 ^ (j + M))%Z by (apply Z.pow_pos_nonneg; lia). nia. }
  assert (Hge : ge = true ↔ (den * 2 ^ (L + M) ≤ num * 2 ^ M)%Z).
  { subst ge. destruct (Z.leb_spec 0 L) as [HL|HL].
    - rewrite Z.leb_le, (Z.pow_add_r 2 L M) by lia. split; [nia|]. intros. nia.
    - rewrite Z.leb_le.
      assert (HLM : (0 ≤ L + M)%Z) by (subst k; destruct (den <=? _)%Z; lia).
      assert (2 ^ M = 2 ^ (- L) * 2 ^ (L + M))%Z as ->
        by (rewrite <- Z.pow_add_r by lia; f_equal; lia).
      assert (0 < 2 ^ (L + M))%Z by (apply Z.pow_pos_nonneg; lia).
      split; [nia|]. intros. nia. }
  subst k. destruct ge.
  - split; [by apply Hge|]. apply Hup; lia.
  - split; [apply Z.lt_le_incl, Hlo; lia|].
    replace (L - 1 + 1 + M)%Z with (L + M)%Z by lia.
    apply Z.nle_gt. intros H. by apply Hge in H.
Qed.

(** [round_binary64] rounds to nearest, ties to even: the result is in the
    form described at [double], it is within half a unit in the last place
    of the fraction (both sides in units of [2^-1074]), a result that is
    exactly half a unit off has an even mantissa, and a result that is the
    least of its binade, where the numbers below are twice as dense, is
    within a quarter of a unit when it lies above the fraction. *)
Lemma round_binary64_nearest (num den : Z) :
  (0 < num)%Z → (0 < den)%Z →
  let m := (round_binary64 num den).1 in
  let e := (round_binary64 num den).2 in
  let x := (num * 2 ^ 1074)%Z in
  let ulp := (den * 2 ^ (e + 1074))%Z in
  (-1074 ≤ e)%Z ∧ (0 ≤ m < 2 ^ 53)%Z ∧ ((-1074 < e)%Z → (2 ^ 52 ≤ m)%Z) ∧
  (2 * Z.abs (x - m * ulp) ≤ ulp)%Z ∧
  ((2 * Z.abs (x - m * ulp) = ulp)%Z → Z.even m = true) ∧
  ((-1074 < e)%Z → m = (2 ^ 52)%Z → (x < m * ulp)%Z → (4 * (m * ulp - x) ≤ ulp)%Z).
Proof.
  intros Hnum Hden. unfold round_binary64.
  destruct (Z.eqb_spec num 0) as [|_]; [lia|].
  pose proof (binade num den) as Hk. cbv zeta in Hk.
  set (L := (Z.log2 num - Z.log2 den)%Z) in *.
  set (k := if (if (0 <=? L)%Z then (den * 2 ^ L <=? num)%Z else (den <=? num * 2 ^ (- L))%Z)
            then L else (L - 1)%Z) in *.
  set (e := Z.max (k - 52) (-1074)).
  set (N := (num * 2 ^ Z.max (- e) 0)%Z). set (D := (den * 2 ^ Z.max e 0)%Z).
  assert (HN : (0 ≤ N)%Z) by (subst N; apply Z.mul_nonneg_nonneg; [lia|apply Z.pow_nonneg; lia]).
  assert (HD : (0 < D)%Z) by (subst D; apply Z.mul_pos_pos; [lia|apply Z.pow_pos_nonneg; lia]).
  pose proof (round_quotient N D HN HD) as Hr. cbv zeta in Hr.
  set (m := if (D <? 2 * (N mod D))%Z || ((D =? 2 * (N mod D))%Z && Z.odd (N / D))
            then (N / D + 1)%Z else (N / D)%Z) in *.
  destruct Hr as (Hqm & Herr & Heven).
  assert (He : (-1074 ≤ e)%Z) by (subst e; lia).
  (* the quotient lies in the binade *)
  set (M := (Z.max 1074 (- k) + 52)%Z).
  destruct (scaled_pair num den e M) as (c & Hc & HcN & HcD); [lia|lia|].
  fold N in HcN. fold D in HcD.
  specialize (Hk M Hnum Hden ltac:(lia) ltac:(lia)).
  assert (Hq : (N / D < 2 ^ 53)%Z ∧ ((-1074 < e)%Z → (2 ^ 52 ≤ N / D)%Z)).
  { split.
    - apply Z.div_lt_upper_bound; [lia|].
      assert (den * 2 ^ (k + 1 + M) ≤ den * 2 ^ (e + M) * 2 ^ 53)%Z.
      { rewrite <- Z.mul_assoc, <- Z.pow_add_r by lia.
        apply Z.mul_le_mono_nonneg_l; [lia|]. apply Z.pow_le_mono_r; lia. }
      nia.
    - intros He'. assert (e = k - 52)%Z as Hek by lia.
      apply Z.div_le_lower_bound; [lia|].
      assert (den * 2 ^ (k + M) = den * 2 ^ (e + M) * 2 ^ 52)%Z.
      { rewrite <- Z.mul_assoc, <- Z.pow_add_r by lia. do 2 f_equal. lia. }
      nia. }
  destruct Hq as (Hq1 & Hq2).
  assert (Hq0 : (0 ≤ N / D)%Z) by (apply Z.div_pos; lia).
  (* the error, in units of 2^-1074 *)
  destruct (scaled_pair num den e 1074) as (c' & Hc' & Hx & Hulp); [lia|lia|].
  fold N in Hx. fold D in Hulp.
  assert (Hscale : ∀ a b, (a ≤ b)%Z → (a * c' ≤ b * c')%Z)
    by (intros; apply Z.mul_le_mono_nonneg_r; lia).
  destruct (Z.eqb_spec m (2 ^ 53)) as [Hm|Hm]; cbn [fst snd].
  - assert (Hulp' : (den * 2 ^ (e + 1 + 1074) = 2 * (D * c'))%Z).
    { replace (e + 1 + 1074)%Z with (1 + (e + 1074))%Z by lia.
      rewrite Z.pow_add_r by lia. lia. }
    rewrite Hx, Hulp'. rewrite Hm in Herr, Heven.
    assert (Hsc : (N * c' - 2 ^ 52 * (2 * (D * c')) = (N - 2 ^ 53 * D) * c')%Z) by lia.
    rewrite Hsc, Z.abs_mul, (Z.abs_eq c') by lia.
    split; [lia|]. split; [lia|]. split; [lia|]. split.
    { rewrite Z.mul_assoc, (Z.mul_comm 2 (D * c')), <- (Z.mul_assoc D c' 2), (Z.mul_comm c' 2),
        (Z.mul_assoc D 2 c').
      apply Hscale. lia. }
    split; [reflexivity|].
    intros _ _ Hlt.
    replace (2 ^ 52 * (2 * (D * c')) - N * c')%Z with ((2 ^ 53 * D - N) * c')%Z by lia.
    replace (2 * (D * c'))%Z with (2 * D * c')%Z by lia.
    rewrite Z.mul_assoc. apply Hscale. lia.
  - rewrite Hx, Hulp.
    assert (Hsc : (N * c' - m * (D * c') = (N - m * D) * c')%Z) by lia.
    rewrite Hsc, Z.abs_mul, (Z.abs_eq c') by lia.
    split; [lia|]. split; [lia|]. split.
    { intros He'. specialize (Hq2 He'). lia. }
    split; [rewrite Z.mul_assoc; by apply Hscale|]. split.
    { intros H. apply Heven. rewrite Z.mul_assoc in H. apply Z.mul_reg_r in H; lia. }
    intros He' Hm52 Hlt. specialize (Hq2 He').
    assert (m = N / D)%Z as Hmq by lia.
    pose proof (Z.mul_div_le N D HD) as Hle. rewrite <- Hmq in Hle.
    exfalso. apply (Z.lt_irrefl (N * c')). eapply Z.lt_le_trans; [exact Hlt|].
    rewrite Z.mul_assoc. apply Hscale. lia.
Qed.

(** The same for the [double] of a decimal [mant * 10^exp10]. *)
Lemma double_of_decimal_nearest (neg : bool) (mant exp10 : Z) :
  (0 < mant)%Z →
  let d := double_of_decimal neg mant exp10 in
  let m := dbl_mant d in
  let e := dbl_exp2 d in
  let x := (mant * 10 ^ Z.max exp10 0 * 2 ^ 1074)%Z in
  let ulp := (10 ^ Z.max (- exp10) 0 * 2 ^ (e + 1074))%Z in
  dbl_neg d = neg ∧
  (-1074 ≤ e)%Z ∧ (0 ≤ m < 2 ^ 53)%Z ∧ ((-1074 < e)%Z → (2 ^ 52 ≤ m)%Z) ∧
  (2 * Z.abs (x - m * ulp) ≤ ulp)%Z ∧
  ((2 * Z.abs (x - m * ulp) = ulp)%Z → Z.even m = true) ∧
  ((-1074 < e)%Z → m = (2 ^ 52)%Z → (x < m * ulp)%Z → (4 * (m * ulp - x) ≤ ulp)%Z).
Proof.
  intros Hmant. unfold double_of_decimal. split; [reflexivity|].
  cbn [dbl_mant dbl_exp2]. destruct (Z.leb_spec 0 exp10) as [He|He].
  - rewrite Z.max_l, Z.max_r by lia. change (10 ^ 0)%Z with 1%Z.
    apply round_binary64_nearest; [|lia].
    apply Z.mul_pos_pos; [lia|apply Z.pow_pos_nonneg; lia].
  - rewrite Z.max_r, Z.max_l by lia. change (10 ^ 0)%Z with 1%Z. rewrite Z.mul_1_r.
    apply round_binary64_nearest; [lia|apply Z.pow_pos_nonneg; lia].
Qed.

Lemma from_chars_double_integer (neg : bool) (ds : string_view) :
  digits1 ds →
  from_chars (minus_sign neg ++ ds) =
    if double_in_range (digits_value ds) 0
    then FromCharsResult errc_ok (length (minus_sign neg ++ ds))
           (Some (double_of_decimal neg (digits_value ds) 0))
    else FromCharsResult result_out_of_range (length (minus_sign neg ++ ds)) None.
Proof.
  intros Hds. pose proof Hds as [Hne Hall].
  assert (Hlen : (length ds =? 0) = false)
    by (apply Nat.eqb_neq; destruct ds; [done|simpl; lia]).
  unfold from_chars, from_chars_double.
  assert (Hneg : match minus_sign neg ++ ds with
                 | c :: _ => (c =? "-")%char | [] => false end = neg).
  { destruct neg; [reflexivity|]. apply (first_digit_not_minus ds Hds). }
  rewrite Hneg.
  replace (drop (if neg then 1 else 0) (minus_sign neg ++ ds)) with ds
    by (destruct neg; [reflexivity|by rewrite drop_0]).
  rewrite span_len_all, drop_all by assumption. cbn match. rewrite Hlen.
  cbn [andb Nat.add drop Nat.eqb]. rewrite firstn_all, take_0, app_nil_r.
  replace (length (minus_sign neg ++ ds)) with ((if neg then 1 else 0) + length ds)
    by (destruct neg; reflexivity).
  replace ((if neg then 1 else 0) + length ds + 0 + 0 + 0)
    with ((if neg then 1 else 0) + length ds) by lia.
  reflexivity.
Qed.

Lemma Parse_integer_text (neg : bool) (ds rest : string_view) :
  digits1 ds → numeral_stop rest →
  Parse (minus_sign neg ++ ds ++ rest) =
    match TryParseNum Z (minus_sign neg ++ ds) with
    | Some num => Ok (JInt num, length (minus_sign neg ++ ds))
    | None =>
        match TryParseNum double (minus_sign neg ++ ds) with
        | Some num => Ok (JDouble num, length (minus_sign neg ++ ds))
        | None => Ok (JNull, 0)
        end
    end.
Proof.
  intros Hds Hrest. pose proof Hds as [Hne Hall].
  pose proof (num_re_at_integer _ ds rest (minus_sign_opt neg) Hds Hrest) as Hre.
  destruct ds as [|d ds']; [done|]. set (ds := d :: ds') in *.
  assert (Hd : is_digit d = true) by (by inversion Hall).
  assert (∃ c r, minus_sign neg ++ ds ++ rest = c :: r ∧
                 mem_chars (c_str whitespace_literal) c = false ∧
                 is_digit c || (c =? "+")%char || (c =? "-")%char = true)
    as (c & r & Heq & Hws & Hbr).
  { destruct neg; simpl.
    - by exists "-"%char, (ds ++ rest).
    - exists d, (ds' ++ rest). split; [done|].
      split; [by apply digit_not_whitespace|by rewrite Hd]. }
  rewrite Heq in *. rewrite Parse_not_whitespace by assumption.
  unfold Parse_branches. rewrite Hbr. unfold parse_num.
  rewrite (regex_search_at_0 _ _ Hre). unfold match_str. cbn [fst snd].
  rewrite drop_0, <- Heq, <- length_app, app_assoc, take_app_length.
  reflexivity.
Qed.

Lemma Parse_integer_literal (neg : bool) (ds rest : string_view) :
  digits1 ds → numeral_stop rest →
  let v := if neg then (- digits_value ds)%Z else digits_value ds in
  (INT_MIN ≤ v ≤ INT_MAX)%Z →
  Parse (minus_sign neg ++ ds ++ rest) = Ok (JInt v, length (minus_sign neg ++ ds)).
Proof.
  intros Hds Hrest v Hv. rewrite Parse_integer_text by assumption.
  unfold TryParseNum at 1. rewrite from_chars_int_literal by assumption. fold v.
  replace ((INT_MIN <=? v)%Z && (v <=? INT_MAX)%Z) with true
    by (symmetry; apply andb_true_intro; split; apply Z.leb_le; lia).
  cbn [ec ptr value]. by rewrite Nat.eqb_refl.
Qed.

(** X6: an optional minus sign and digits that denote an [int], followed by
    nothing or by a character that cannot continue a numeral, are parsed
    into that [int], with the length of the sign and the digits as the
    count. *)
Theorem X6_integer_literal (neg : bool) (ds rest : string_view) :
  digits1 ds → numeral_stop rest →
  let v := if neg then (- digits_value ds)%Z else digits_value ds in
  (INT_MIN ≤ v ≤ INT_MAX)%Z →
  Parse (minus_sign neg ++ ds ++ rest) = Ok (JInt v, length (minus_sign neg ++ ds)).
Proof. apply Parse_integer_literal. Qed.

Lemma X6_integer_literal_witness :
  Parse (minus_sign true ++ lit "2147483648" ++ lit ",7]")
    = Ok (JInt (-2147483648), length (minus_sign true ++ lit "2147483648")).
Proof.
  apply (X6_integer_literal true (lit "2147483648") (lit ",7]")).
  - split; [discriminate|repeat constructor].
  - repeat split; discriminate.
  - vm_compute. split; discriminate.
Defined.



(** ** Lists and dictionaries of well-formed elements *)

Lemma join_comma_cons (e : string_view) (es : list string_view) :
  join_comma (e :: es)
    = e ++ match es with [] => [] | _ :: _ => ","%char :: join_comma es end.
Proof. destruct es; simpl; [by rewrite app_nil_r|reflexivity]. Qed.

Lemma element_head (e : string_view) (v : JsonObject) :
  element e v → ∃ c e', e = c :: e' ∧ c ≠ "]"%char ∧ c ≠ "}"%char.
Proof.
  intros [Hne H]. destruct e as [|c e']; [done|]. exists c, e'. split; [done|].
  specialize (H ["]"%char] ltac:(simpl; auto)).
  split; intros ->; cbn [app] in H;
    rewrite Parse_not_whitespace in H by reflexivity; discriminate.
Qed.

Lemma list_body_close parse (json : string_view) (i : nat) (res : JsonList) :
  json !! i = Some "]"%char → list_body parse json (i, res) = Ok (Break, (i + 1, res)).
Proof. intros Hi. unfold list_body. by rewrite (proj2 (at_Ok _ _ _) Hi). Qed.

Lemma list_body_element parse (json : string_view) (i : nat) (res : JsonList)
    (c c' : ascii) (obj : JsonObject) (eaten : nat) :
  json !! i = Some c → c ≠ "]"%char → parse (substr json i) = Ok (obj, eaten) →
  eaten ≠ 0 → json !! (i + eaten) = Some c' →
  list_body parse json (i, res)
    = Ok (Continue, (if (c' =? ",")%char then i + eaten + 1 else i + eaten, res ++ [obj])).
Proof.
  intros Hi Hc Hp He Hi'. unfold list_body. rewrite (proj2 (at_Ok _ _ _) Hi). simpl.
  apply Ascii.eqb_neq in Hc. rewrite Hc, Hp. simpl.
  apply Nat.eqb_neq in He. rewrite He. by rewrite (proj2 (at_Ok _ _ _) Hi').
Qed.

Lemma dict_body_close parse (json : string_view) (i : nat) (res : JsonDict) :
  json !! i = Some "}"%char → dict_body parse json (i, res) = Ok (Break, (i + 1, res)).
Proof. intros Hi. unfold dict_body. by rewrite (proj2 (at_Ok _ _ _) Hi). Qed.

Lemma dict_body_entry parse (json : string_view) (i : nat) (res : JsonDict)
    (c c2 : ascii) (key : string) (key_eaten : nat) (val : JsonObject) (val_eaten : nat) :
  json !! i = Some c → c ≠ "}"%char →
  parse (substr json i) = Ok (JString key, key_eaten) → key_eaten ≠ 0 →
  json !! (i + key_eaten) = Some ":"%char →
  parse (substr json (i + key_eaten + 1)) = Ok (val, val_eaten) → val_eaten ≠ 0 →
  json !! (i + key_eaten + 1 + val_eaten) = Some c2 →
  dict_body parse json (i, res)
    = Ok (Continue, (if (c2 =? ",")%char then i + key_eaten + 1 + val_eaten + 1
                     else i + key_eaten + 1 + val_eaten,
                     try_emplace key val res)).
Proof.
  intros Hi Hc Hk Hke Hcolon Hv Hve Hi2. unfold dict_body.
  rewrite (proj2 (at_Ok _ _ _) Hi). simpl.
  apply Ascii.eqb_neq in Hc. rewrite Hc, Hk. simpl.
  apply Nat.eqb_neq in Hke. rewrite Hke.
  rewrite (proj2 (at_Ok _ _ _) Hcolon). simpl. rewrite Hv. simpl.
  apply Nat.eqb_neq in Hve. rewrite Hve.
  by rewrite (proj2 (at_Ok _ _ _) Hi2).
Qed.

Lemma list_loop_elements (tail : string_view) (es : list string_view) (vs : JsonList) :
  Forall2 element es vs →
  ∀ (json pre : string_view) (res : JsonList),
    json = pre ++ join_comma es ++ "]"%char :: tail →
    run_loop (length json) (list_body Parse json) (length pre, res)
      = Ok (length pre + length (join_comma es) + 1, res ++ vs).
Proof.
  induction 1 as [|e v es vs He Hes IH]; intros json pre res Hjson.
  - simpl in Hjson. rewrite (run_loop_break _ _ _ (length pre + 1, res)).
    + simpl. rewrite app_nil_r. do 2 f_equal. lia.
    + subst json. rewrite length_app. simpl. lia.
    + apply list_body_close. subst json. by apply list_lookup_middle.
  - rewrite join_comma_cons in Hjson.
    destruct (element_head e v He) as (c & e' & -> & Hc & _).
    destruct He as [_ He].
    set (e := c :: e') in *.
    set (sep := match es with [] => [] | _ :: _ => ","%char :: join_comma es end) in *.
    assert (∃ c' R', sep ++ "]"%char :: tail = c' :: R' ∧ stops (c' :: R') ∧
              ∃ pre', json = pre' ++ join_comma es ++ "]"%char :: tail ∧
                      length pre' = (if (c' =? ",")%char then length pre + length e + 1
                                     else length pre + length e))
      as (c' & R' & HR & Hstop & pre' & Hjson' & Hlen').
    { destruct es as [|e2 es2] eqn:Ees; subst sep.
      - exists "]"%char, tail. split; [done|]. split; [simpl; auto|].
        exists (pre ++ e). split.
        + rewrite Hjson. simpl. by rewrite <- !app_assoc.
        + rewrite length_app. reflexivity.
      - exists ","%char, (join_comma (e2 :: es2) ++ "]"%char :: tail).
        split; [done|]. split; [simpl; auto|].
        exists (pre ++ e ++ [","%char]). split.
        + rewrite Hjson. by rewrite <- !app_assoc.
        + rewrite !length_app. simpl. lia. }
    assert (Hj : json = pre ++ e ++ c' :: R')
      by (rewrite Hjson, <- HR; by rewrite <- !app_assoc).
    rewrite (run_loop_continue _ _ (length pre, res) (length pre', res ++ [v])).
    + rewrite (IH json pre' (res ++ [v]) Hjson'), Hlen'.
      rewrite join_comma_cons. fold sep.
      assert (length (sep ++ "]"%char :: tail) = length (c' :: R')) as Hl by by rewrite HR.
      rewrite <- app_assoc. simpl. do 2 f_equal.
      rewrite !length_app. rewrite length_app in Hl. simpl in Hl.
      destruct es; subst sep; simpl in *.
      * injection HR as <- <-. simpl. lia.
      * injection HR as <- <-. simpl. lia.
    + apply list_body_progress.
    + simpl. rewrite Hj, !length_app. simpl. lia.
    + rewrite Hlen'.
      apply (list_body_element _ _ _ _ c c' v (length e)).
      * rewrite Hj. by apply list_lookup_middle.
      * exact Hc.
      * unfold substr. rewrite Hj, drop_app_length. by apply He.
      * done.
      * rewrite Hj, app_assoc. apply list_lookup_middle. by rewrite length_app.
Qed.

Lemma Parse_list_elements (es : list string_view) (vs : JsonList) (tail : string_view) :
  Forall2 element es vs →
  Parse ("["%char :: join_comma es ++ "]"%char :: tail)
    = Ok (JList vs, length (join_comma es) + 2).
Proof.
  intros H. rewrite Parse_list.
  pose proof (list_loop_elements tail es vs H
                ("["%char :: join_comma es ++ "]"%char :: tail) ["["%char] [] eq_refl) as H'.
  change (length ["["%char]) with 1 in H'. cbv zeta. rewrite H'. simpl.
  do 2 f_equal. lia.
Qed.

(** X8: a list literal whose elements are texts that [Parse] turns into
    values, each whole and alone, with a comma between each two, is parsed
    into the list of these values in order, with a count that ends just
    after the closing bracket; what follows the literal plays no part, so
    the literal is such a text itself. *)
Theorem X8_list_of_elements (es : list string_view) (vs : JsonList) :
  Forall2 element es vs →
  (∀ tail, Parse ("["%char :: join_comma es ++ "]"%char :: tail)
             = Ok (JList vs, length (join_comma es) + 2)) ∧
  element ("["%char :: join_comma es ++ ["]"%char]) (JList vs).
Proof.
  intros H. split; [intros tail; by apply Parse_list_elements|].
  split; [done|]. intros rest _.
  cbn [app]. rewrite <- app_assoc. cbn [app].
  rewrite (Parse_list_elements es vs rest H). do 2 f_equal.
  simpl. rewrite length_app. simpl. lia.
Qed.

Lemma X8_list_of_elements_witness :
  Parse ("["%char :: join_comma [lit "'a'"; lit "[]"] ++ "]"%char :: lit " rest")
    = Ok (JList [JString "a"; JList []], length (join_comma [lit "'a'"; lit "[]"]) + 2).
Proof.
  assert (H : Forall2 element [lit "'a'"; lit "[]"] [JString "a"; JList []]).
  { constructor; [|constructor; [|constructor]]; (split; [discriminate|intros rest _]).
    - exact (Parse_closed_string (lit "a") rest eq_refl eq_refl).
    - apply (Parse_list_elements [] [] rest). constructor. }
  exact (proj1 (X8_list_of_elements _ _ H) (lit " rest")).
Defined.

Ltac app_norm :=
  repeat first [rewrite <- app_assoc | rewrite app_nil_r | progress cbn [app]].

Lemma dict_loop_entries (tail : string_view)
    (ets : list (string_view * string_view)) (kvs : list (string * JsonObject)) :
  Forall2 entry ets kvs →
  ∀ (json pre : string_view) (res : JsonDict),
    json = pre ++ join_comma (entry_text <$> ets) ++ "}"%char :: tail →
    run_loop (length json) (dict_body Parse json) (length pre, res)
      = Ok (length pre + length (join_comma (entry_text <$> ets)) + 1,
            foldl (λ res kv, try_emplace kv.1 kv.2 res) res kvs).
Proof.
  induction 1 as [|[kt vt] [key val] ets kvs [Hk Hv] Hes IH]; intros json pre res Hjson.
  - simpl in Hjson. rewrite (run_loop_break _ _ _ (length pre + 1, res)).
    + simpl. do 2 f_equal. lia.
    + subst json. rewrite length_app. simpl. lia.
    + apply dict_body_close. subst json. by apply list_lookup_middle.
  - rewrite fmap_cons, join_comma_cons in Hjson. simpl in Hk, Hv.
    unfold entry_text at 1 in Hjson. cbn [fst snd] in Hjson.
    destruct Hk as (body & -> & Hq & Hesc & ->).
    destruct Hv as [Hvne Hv].
    rewrite fmap_cons, join_comma_cons. unfold entry_text at 1. cbn [fst snd].
    set (J := join_comma (entry_text <$> ets)) in *.
    set (sep := match entry_text <$> ets with
                | [] => []
                | _ :: _ => ","%char :: J
                end) in *.
    assert (Hkt : length (DQUOTE :: body ++ [DQUOTE]) = length body + 2)
      by (simpl; rewrite length_app; simpl; lia).
    set (kt := DQUOTE :: body ++ [DQUOTE]) in *.
    assert (∃ c2 R', sep ++ "}"%char :: tail = c2 :: R' ∧ stops (c2 :: R') ∧
              length sep + length J = (if (c2 =? ",")%char then 1 + 2 * length J else 0) ∧
              ∃ pre', json = pre' ++ J ++ "}"%char :: tail ∧
                      length pre' =
                        (if (c2 =? ",")%char
                         then length pre + length kt + 1 + length vt + 1
                         else length pre + length kt + 1 + length vt))
      as (c2 & R' & HR & Hstop & Hsep & pre' & Hjson' & Hlen').
    { subst sep. destruct (entry_text <$> ets) as [|e2 es2].
      - exists "}"%char, tail. split; [done|]. split; [simpl; auto|]. split; [done|].
        exists (pre ++ kt ++ ":"%char :: vt). split.
        + rewrite Hjson. subst J. simpl join_comma. by app_norm.
        + rewrite !length_app. simpl. lia.
      - exists ","%char, (J ++ "}"%char :: tail).
        split; [done|]. split; [simpl; auto|]. split; [simpl; lia|].
        exists (pre ++ kt ++ ":"%char :: vt ++ [","%char]). split.
        + rewrite Hjson. by app_norm.
        + rewrite !length_app. simpl. rewrite !length_app. simpl. lia. }
    assert (Hj : json = pre ++ kt ++ ":"%char :: vt ++ c2 :: R').
    { rewrite Hjson, <- HR. by app_norm. }
    rewrite (run_loop_continue _ _ (length pre, res)
               (length pre', try_emplace (decode false body) val res)).
    + rewrite (IH json pre' _ Hjson'), Hlen'. cbn [fst snd]. f_equal. f_equal.
      rewrite !length_app. cbn [length].
      destruct (c2 =? ",")%char; lia.
    + apply dict_body_progress.
    + simpl. rewrite Hj, !length_app. simpl. lia.
    + rewrite Hlen'.
      apply (dict_body_entry _ _ _ _ DQUOTE c2 (decode false body) (length kt) val (length vt)).
      * rewrite Hj. by apply list_lookup_middle.
      * discriminate.
      * unfold substr. rewrite Hj, drop_app_length, Hkt. unfold kt. app_norm.
        by apply Parse_closed_string.
      * rewrite Hkt. lia.
      * rewrite Hj, app_assoc. apply list_lookup_middle. by rewrite length_app.
      * unfold substr. rewrite Hj.
        replace (pre ++ kt ++ ":"%char :: vt ++ c2 :: R')
          with ((pre ++ kt ++ [":"%char]) ++ vt ++ c2 :: R') by by app_norm.
        rewrite drop_app_length'; [by apply Hv|].
        rewrite !length_app. simpl. lia.
      * destruct vt; [done|simpl; lia].
      * rewrite Hj.
        replace (pre ++ kt ++ ":"%char :: vt ++ c2 :: R')
          with ((pre ++ kt ++ ":"%char :: vt) ++ c2 :: R') by by app_norm.
        apply list_lookup_middle. rewrite !length_app. simpl. lia.
Qed.

Lemma Parse_dict_entries (ets : list (string_view * string_view))
    (kvs : list (string * JsonObject)) (tail : string_view) :
  Forall2 entry ets kvs →
  Parse ("{"%char :: join_comma (entry_text <$> ets) ++ "}"%char :: tail)
    = Ok (JDict (dict_of kvs), length (join_comma (entry_text <$> ets)) + 2).
Proof.
  intros H. rewrite Parse_dict.
  pose proof (dict_loop_entries tail ets kvs H
                ("{"%char :: join_comma (entry_text <$> ets) ++ "}"%char :: tail)
                ["{"%char] ∅ eq_refl) as H'.
  change (length ["{"%char]) with 1 in H'. cbv zeta. rewrite H'. simpl.
  unfold dict_of. do 2 f_equal. lia.
Qed.

Lemma try_emplace_lookup (key k : string) (val : JsonObject) (res : JsonDict) :
  try_emplace key val res !! k
    = match res !! k with
      | Some v => Some v
      | None => if decide (key = k) then Some val else None
      end.
Proof.
  unfold try_emplace. destruct (decide (key = k)) as [->|Hne].
  - destruct (res !! k) eqn:E; [done|]. by rewrite lookup_insert_eq.
  - destruct (res !! key) eqn:E; [by destruct (res !! k)|].
    rewrite lookup_insert_ne by done. by destruct (res !! k).
Qed.

Lemma foldl_try_emplace_lookup (kvs : list (string * JsonObject)) (res : JsonDict)
    (k : string) :
  foldl (λ res kv, try_emplace kv.1 kv.2 res) res kvs !! k
    = match res !! k with
      | Some v => Some v
      | None => first_value k kvs
      end.
Proof.
  revert res. induction kvs as [|[key val] kvs IH]; intros res; simpl.
  - by destruct (res !! k).
  - rewrite IH, try_emplace_lookup.
    destruct (res !! k); [done|]. by destruct (decide (key = k)).
Qed.

Lemma stops_numeral_stop (rest : string_view) : stops rest → numeral_stop rest.
Proof.
  destruct rest as [|c rest]; simpl; [done|].
  intros [->|[->| ->]]; repeat split; discriminate.
Qed.

Lemma Parse_space_prefix (w s : string_view) (v : JsonObject) (n : nat) :
  Forall is_space w → Parse s = Ok (v, n) → 0 < n →
  Parse (w ++ s) = Ok (v, n + length w).
Proof.
  intros Hw Hs Hn. destruct w as [|c w]; [simpl; by rewrite Nat.add_0_r|].
  set (w' := c :: w) in *.
  destruct (find_first_not_of (c_str whitespace_literal) s) as [off|] eqn:Hoff.
  - rewrite (Parse_skip s off Hoff) in Hs.
    apply bind_Ok in Hs as ([obj eaten] & Hsub & Heq). injection Heq as -> <-.
    rewrite (Parse_skip (w' ++ s) (length w' + off)).
    + unfold substr in *. rewrite <- drop_drop, drop_app_length, Hsub. simpl.
      f_equal. f_equal. lia.
    + rewrite find_first_not_of_app, Hoff by by apply Forall_is_space_mem. reflexivity.
  - rewrite (Parse_all_whitespace s Hoff) in Hs. injection Hs as <- <-. lia.
Qed.

Lemma element_integer (neg : bool) (ds : string_view) :
  digits1 ds →
  let v := if neg then (- digits_value ds)%Z else digits_value ds in
  (INT_MIN ≤ v ≤ INT_MAX)%Z → element (minus_sign neg ++ ds) (JInt v).
Proof.
  intros Hds v Hv. split.
  - destruct Hds as [Hne _]. destruct neg, ds; done.
  - intros rest Hrest. rewrite <- app_assoc.
    by apply Parse_integer_literal; [|apply stops_numeral_stop|].
Qed.

Lemma element_string (body : string_view) :
  has_closing_quote false body = false → pending_escape false body = false →
  element (DQUOTE :: body ++ [DQUOTE]) (JString (decode false body)).
Proof.
  intros Hq He. split; [done|]. intros rest _. cbn [app]. rewrite <- app_assoc. cbn [app].
  rewrite Parse_closed_string by assumption. do 2 f_equal.
  simpl. rewrite length_app. simpl. lia.
Qed.

Lemma element_list (es : list string_view) (vs : JsonList) :
  Forall2 element es vs → element ("["%char :: join_comma es ++ ["]"%char]) (JList vs).
Proof.
  intros H. split; [done|]. intros rest _.
  cbn [app]. rewrite <- app_assoc. cbn [app].
  rewrite (Parse_list_elements es vs rest H). do 2 f_equal.
  simpl. rewrite length_app. simpl. lia.
Qed.

Lemma element_dict (ets : list (string_view * string_view))
    (kvs : list (string * JsonObject)) :
  Forall2 entry ets kvs →
  element ("{"%char :: join_comma (entry_text <$> ets) ++ ["}"%char]) (JDict (dict_of kvs)).
Proof.
  intros H. split; [done|]. intros rest _.
  cbn [app]. rewrite <- app_assoc. cbn [app].
  rewrite (Parse_dict_entries ets kvs rest H). do 2 f_equal.
  simpl. rewrite length_app. simpl. lia.
Qed.

Lemma element_space_prefix (w e : string_view) (v : JsonObject) :
  Forall is_space w → element e v → element (w ++ e) v.
Proof.
  intros Hw [Hne He]. split; [by destruct w, e|]. intros rest Hrest.
  rewrite <- app_assoc, (Parse_space_prefix w (e ++ rest) v (length e)),
    length_app; [f_equal; f_equal; lia|done|by apply He|destruct e; [done|simpl; lia]].
Qed.

Lemma element_blank (w : string_view) : w ≠ [] → Forall is_space w → element w JNull.
Proof.
  intros Hne Hw. split; [done|]. intros [|c rest] Hstop; [done|].
  rewrite Parse_leading_space; [|done..|].
  - assert (Parse (c :: rest) = Ok (JNull, 0)) as ->; [|done].
    simpl in Hstop. destruct Hstop as [->|[->| ->]];
      by rewrite Parse_not_whitespace.
  - unfold is_space. simpl in Hstop. intros Hin.
    destruct Hstop as [->|[->| ->]];
      repeat (apply elem_of_cons in Hin as [Hin|Hin]; [discriminate|]);
      by apply elem_of_nil in Hin.
Qed.

Lemma json_text_parse (t : string_view) (v : JsonObject) :
  json_text t v → element t v ∧ Parse t = Ok (v, length t).
Proof.
  revert t v. fix IH 3. intros t v H.
  destruct H as [neg ds Hds Hv|body Hq He|es vs Hes|ets kvs Hes|w t v Hw Ht].
  - split; [by apply element_integer|].
    rewrite <- (app_nil_r (minus_sign neg ++ ds)) at 1. rewrite <- app_assoc.
    by apply Parse_integer_literal.
  - split; [by apply element_string|].
    rewrite (Parse_closed_string body [] Hq He). do 2 f_equal.
    simpl. rewrite length_app. simpl. lia.
  - assert (Forall2 element es vs) as Hel.
    { clear -IH Hes. revert es vs Hes. fix IHl 3.
      intros es vs [|e v es' vs' He Hes']; constructor;
        [apply IH, He|apply IHl, Hes']. }
    split; [by apply element_list|].
    rewrite (Parse_list_elements es vs [] Hel). do 2 f_equal.
    simpl. rewrite length_app. simpl. lia.
  - assert (Forall2 entry ets kvs) as Hel.
    { clear -IH Hes. revert ets kvs Hes. fix IHl 3.
      intros ets kvs [|et kv ets' kvs' [Hk He] Hes']; constructor;
        [split; [exact Hk|apply IH, He]|apply IHl, Hes']. }
    split; [by apply element_dict|].
    rewrite (Parse_dict_entries ets kvs [] Hel). do 2 f_equal.
    simpl. rewrite length_app. simpl. lia.
  - destruct (IH t v Ht) as [Hel Hp].
    split; [by apply element_space_prefix|].
    rewrite (Parse_space_prefix w t v (length t) Hw Hp), length_app.
    + do 2 f_equal. lia.
    + destruct Hel as [Hne _]. destruct t; [done|simpl; lia].
Qed.

(** ** What [Parse] can return *)

Lemma TryParseNum_int_range (str : string_view) (v : Z) :
  TryParseNum Z str = Some v → (INT_MIN ≤ v ≤ INT_MAX)%Z.
Proof.
  unfold TryParseNum, from_chars, from_chars_int.
  destruct (span_len is_digit _ =? 0); [discriminate|].
  match goal with |- context [if ?b then _ else _] => destruct b eqn:E end;
    [|discriminate].
  cbn [ec ptr value]. destruct (_ =? _); [|discriminate]. intros [= <-].
  apply andb_prop in E as [E1 E2]. apply Z.leb_le in E1, E2. lia.
Qed.

Lemma parse_num_parsed_value (json : string_view) (v : JsonObject) (n : nat) :
  parse_num json = Ok (v, n) → parsed_value v.
Proof.
  unfold parse_num. destruct (regex_search json) as [m|]; [|intros [= <- _]; constructor].
  destruct (TryParseNum Z _) as [num|] eqn:E.
  - intros [= <- _]. constructor. by apply TryParseNum_int_range in E.
  - destruct (TryParseNum double _); intros [= <- _]; constructor.
Qed.

Lemma for_loop_invariant {R : Type} (P : R → Prop) (size : nat)
    (body : nat * R → outcome (ctl * (nat * R))) (n : nat) (st stf : nat * R) :
  (∀ st c st', 1 ≤ st.1 → P st.2 → body st = Ok (c, st') → P st'.2) →
  progresses body → 1 ≤ st.1 →
  P st.2 → for_loop size body n st = Ok stf → P stf.2.
Proof.
  intros Hb Hp. revert st. induction n as [|n IH]; intros st H1 Hst H; simpl in H.
  - destruct (st.1 <? size); [discriminate|congruence].
  - destruct (st.1 <? size); [|congruence].
    apply bind_Ok in H as ([c st1] & Hb1 & H). simpl in H.
    pose proof (Hb _ _ _ H1 Hst Hb1). destruct c; [|congruence].
    apply Hp in Hb1. eapply IH; [|done..]. lia.
Qed.

Lemma list_body_parsed parse json st c st' :
  (∀ k v n, 1 ≤ k → parse (substr json k) = Ok (v, n) → parsed_value v) →
  1 ≤ st.1 → Forall parsed_value st.2 →
  list_body parse json st = Ok (c, st') → Forall parsed_value st'.2.
Proof.
  destruct st as [i res]. simpl. intros Hp Hi Hres H. unfold list_body in H.
  apply bind_Ok in H as (ch & _ & H).
  destruct (ch =? "]")%char; [by injection H as <- <-|].
  apply bind_Ok in H as ([obj eaten] & Hobj & H).
  destruct (eaten =? 0); [by injection H as <- <-|].
  apply bind_Ok in H as (ch' & _ & H). injection H as <- <-. simpl.
  apply Forall_app. split; [done|]. constructor; [|done]. by eapply Hp.
Qed.

Lemma dict_body_parsed parse json st c st' :
  (∀ k v n, 1 ≤ k → parse (substr json k) = Ok (v, n) → parsed_value v) →
  1 ≤ st.1 → (∀ k v, st.2 !! k = Some v → parsed_value v) →
  dict_body parse json st = Ok (c, st') → ∀ k v, st'.2 !! k = Some v → parsed_value v.
Proof.
  destruct st as [i res]. simpl. intros Hp Hi Hres H. unfold dict_body in H.
  apply bind_Ok in H as (ch & _ & H).
  destruct (ch =? "}")%char; [by injection H as <- <-|].
  apply bind_Ok in H as ([key_obj key_eaten] & _ & H).
  destruct (key_eaten =? 0); [by injection H as <- <-|].
  destruct key_obj; try (by injection H as <- <-).
  apply bind_Ok in H as (ch1 & _ & H).
  apply bind_Ok in H as ([val_obj val_eaten] & Hval & H).
  destruct (val_eaten =? 0); [by injection H as <- <-|].
  apply bind_Ok in H as (ch2 & _ & H). injection H as <- <-. simpl.
  intros k v. rewrite try_emplace_lookup.
  destruct (res !! k) eqn:E; [intros [= <-]; by eapply Hres|].
  destruct (decide (s = k)); [|discriminate]. intros [= <-].
  eapply Hp; [|exact Hval]. destruct (ch1 =? ":")%char; lia.
Qed.

Lemma Parse_fuel_parsed_value (fuel : nat) (json : string_view) (v : JsonObject) (n : nat) :
  Parse_fuel fuel json = Ok (v, n) → parsed_value v.
Proof.
  revert json v n. induction fuel as [|fuel IH]; intros json v n H; [discriminate|].
  simpl in H. unfold Parse_body in H.
  destruct json as [|c0 rest]; [injection H as <- _; constructor|].
  set (json := c0 :: rest) in *.
  assert (Hrec : ∀ k v n, 1 ≤ k → Parse_fuel fuel (substr json k) = Ok (v, n) →
                          parsed_value v) by (intros; by eapply IH).
  destruct (find_first_not_of _ json) as [[|off]|].
  2: { apply bind_Ok in H as ([obj eaten] & Hsub & H). injection H as <- _.
       by eapply IH. }
  all: unfold Parse_branches in H.
  all: destruct (_ || _); [by apply parse_num_parsed_value in H|].
  all: destruct (c0 =? DQUOTE)%char;
    [destruct (string_loop _ _ _ _); injection H as <- _; constructor|].
  all: destruct (c0 =? "[")%char.
  all: try (apply bind_Ok in H as ([i res] & Hl & H); injection H as <- _;
            apply parsed_list;
            exact (for_loop_invariant (Forall parsed_value) _ _ _ (1, []) (i, res)
                     (λ st c st' H1 Hst Hb, list_body_parsed _ _ st c st' Hrec H1 Hst Hb)
                     (list_body_progress _ _) (le_n 1) (Forall_nil_2 _) Hl)).
  all: destruct (c0 =? "{")%char; [|injection H as <- _; constructor].
  all: apply bind_Ok in H as ([i res] & Hl & H); injection H as <- _;
       apply parsed_dict;
       refine (for_loop_invariant
                 (λ res : JsonDict, ∀ k v, res !! k = Some v → parsed_value v)
                 _ _ _ (1, ∅) (i, res)
                 (λ st c st' H1 Hst Hb, dict_body_parsed _ _ st c st' Hrec H1 Hst Hb)
                 (dict_body_progress _ _) (le_n 1) _ Hl);
       intros k v' Hk; cbn [snd] in Hk; by rewrite lookup_empty in Hk.
Qed.

(** ** The accessors *)

Lemma JsonObject_get_is (T : alternative) (obj : JsonObject) :
  is_Some (JsonObject_get T obj) ↔ JsonObject_is T obj = true.
Proof.
  unfold JsonObject_is. rewrite bool_decide_eq_true.
  destruct T, obj; simpl; split; intros H; try done; try (by destruct H); eauto.
Qed.

Lemma JsonObject_get_make (T : alternative) (x : payload T) :
  JsonObject_get T (JsonObject_make T x) = Some x.
Proof. destruct T; simpl; try reflexivity. by destruct x. Qed.

Lemma JsonObject_make_get (T : alternative) (obj : JsonObject) (x : payload T) :
  JsonObject_get T obj = Some x → obj = JsonObject_make T x.
Proof. destruct T, obj; simpl; intros [= <-]; reflexivity. Qed.

(** ** The first character decides the kind of the result *)

Lemma TryParseNum_nil_int : TryParseNum Z [] = None.
Proof. reflexivity. Qed.

Lemma TryParseNum_nil_double : TryParseNum double [] = None.
Proof. reflexivity. Qed.

Lemma parse_num_kind (json : string_view) (v : JsonObject) (n : nat) :
  parse_num json = Ok (v, n) →
  (0 < n ∧ (JsonObject_is AInt v = true ∨ JsonObject_is ADouble v = true)) ∨
  (n = 0 ∧ v = JNull).
Proof.
  unfold parse_num. destruct (regex_search json) as [m|]; [|intros [= <- <-]; by right].
  destruct (match_str json m) as [|c str] eqn:Estr.
  - rewrite TryParseNum_nil_int, TryParseNum_nil_double. intros [= <- <-]. by right.
  - destruct (TryParseNum Z _); [intros [= <- <-]; left; split; [simpl; lia|by left]|].
    destruct (TryParseNum double _); intros [= <- <-];
      [left; split; [simpl; lia|by right]|by right].
Qed.

(** ** [TryParseNum<int>] *)

Lemma span_len_full (p : ascii → bool) (s : string_view) :
  span_len p s = length s → Forall (λ c, p c = true) s.
Proof.
  induction s as [|c s IH]; simpl; [constructor|].
  destruct (p c) eqn:E; [|discriminate]. intros [= H]. constructor; auto.
Qed.

Lemma TryParseNum_int_spec (str : string_view) (v : Z) :
  TryParseNum Z str = Some v ↔
  ∃ (neg : bool) (ds : string_view),
    str = minus_sign neg ++ ds ∧ digits1 ds ∧
    v = (if neg then - digits_value ds else digits_value ds)%Z ∧
    (INT_MIN ≤ v ≤ INT_MAX)%Z.
Proof.
  split.
  - intros H. pose proof (TryParseNum_int_range _ _ H) as Hr.
    unfold TryParseNum, from_chars, from_chars_int in H.
    set (neg := match str with c :: _ => (c =? "-")%char | [] => false end) in *.
    set (sg := if neg then 1 else 0) in *.
    destruct (span_len is_digit (drop sg str) =? 0) eqn:End; [discriminate|].
    apply Nat.eqb_neq in End.
    match type of H with context [if ?b then _ else _] => destruct b end; [|discriminate].
    cbn [ec ptr value] in H.
    destruct (_ =? length str) eqn:Elen; [|discriminate]. apply Nat.eqb_eq in Elen.
    injection H as <-.
    assert (Hsg : str = minus_sign neg ++ drop sg str).
    { subst sg neg. destruct str as [|c str]; [done|].
      destruct (c =? "-")%char eqn:E; [|done]. by apply Ascii.eqb_eq in E as ->. }
    assert (Hfull : span_len is_digit (drop sg str) = length (drop sg str))
      by (rewrite length_drop; lia).
    exists neg, (drop sg str). split; [exact Hsg|].
    rewrite Hfull, firstn_all in *. split; [|done].
    split; [|by apply span_len_full].
    intros E. rewrite E in End. simpl in End. lia.
  - intros (neg & ds & -> & Hds & -> & Hr).
    unfold TryParseNum. rewrite from_chars_int_literal by assumption.
    replace ((INT_MIN <=? _)%Z && (_ <=? INT_MAX)%Z) with true
      by (symmetry; apply andb_true_intro; split; apply Z.leb_le; lia).
    cbn [ec ptr value]. by rewrite Nat.eqb_refl.
Qed.

(** ** Signs that no digit follows *)

Lemma num_re_at_no_digit (c : ascii) (s : string_view) :
  is_digit c = false → is_sign c = false → num_re_at (c :: s) = None.
Proof. intros Hd Hs. unfold num_re_at. simpl. by rewrite Hs, drop_0; simpl; rewrite Hd. Qed.

Lemma num_re_at_lone_sign (c : ascii) (s : string_view) :
  is_sign c = true → span_len is_digit s = 0 → num_re_at (c :: s) = None.
Proof. intros Hs Hd. unfold num_re_at. simpl. rewrite Hs. simpl. by rewrite drop_0, Hd. Qed.

Lemma regex_search_skip (junk s : string_view) (m : nat * nat) :
  Forall (λ c, is_digit c = false ∧ is_sign c = false) junk →
  regex_search s = Some m →
  regex_search (junk ++ s) = Some (length junk + m.1, m.2).
Proof.
  intros Hj Hs. induction Hj as [|c junk [Hd Hsg] _ IH]; [by destruct m|].
  cbn [app regex_search]. rewrite num_re_at_no_digit, IH by assumption. reflexivity.
Qed.

Lemma Parse_sign_then_junk (c : ascii) (junk ds rest : string_view) :
  is_sign c = true → junk ≠ [] →
  Forall (λ c, is_digit c = false ∧ is_sign c = false) junk →
  digits1 ds → numeral_stop rest →
  (INT_MIN ≤ digits_value ds ≤ INT_MAX)%Z →
  regex_search (c :: junk ++ ds ++ rest) = Some (1 + length junk, length ds) ∧
  Parse (c :: junk ++ ds ++ rest) = Ok (JInt (digits_value ds), length ds).
Proof.
  intros Hc Hne Hj Hds Hrest Hr.
  assert (Hre : regex_search (c :: junk ++ ds ++ rest) = Some (1 + length junk, length ds)).
  { cbn [regex_search]. rewrite num_re_at_lone_sign; [|done|].
    - rewrite (regex_search_skip junk (ds ++ rest) (0, length ds) Hj).
      + simpl. by rewrite Nat.add_0_r.
      + apply regex_search_at_0.
        apply (num_re_at_integer [] ds rest); [by left|done..].
    - destruct Hj as [|j junk [Hd _] _]; [done|]. simpl. by rewrite Hd. }
  split; [exact Hre|].
  rewrite Parse_not_whitespace by by apply sign_not_whitespace.
  unfold Parse_branches.
  replace (is_digit c || (c =? "+")%char || (c =? "-")%char) with true
    by (unfold is_sign in Hc; by rewrite <- Bool.orb_assoc, Hc, Bool.orb_true_r).
  unfold parse_num. rewrite Hre. unfold match_str. cbn [fst snd].
  replace (drop (1 + length junk) (c :: junk ++ ds ++ rest)) with (ds ++ rest)
    by (simpl; by rewrite drop_app_length).
  rewrite take_app_length.
  pose proof (proj2 (TryParseNum_int_spec ds (digits_value ds))) as Hint.
  rewrite Hint; [done|]. by exists false, ds.
Qed.

Lemma TryParseNum_plus_int (s : string_view) : TryParseNum Z ("+"%char :: s) = None.
Proof. reflexivity. Qed.

Lemma TryParseNum_plus_double (s : string_view) :
  TryParseNum double ("+"%char :: s) = None.
Proof. reflexivity. Qed.

Lemma Parse_plus_digit (d : ascii) (rest : string_view) :
  is_digit d = true → Parse ("+"%char :: d :: rest) = Ok (JNull, 0).
Proof.
  intros Hd.
  destruct (sign_digit_head_match "+" d rest eq_refl Hd) as (n & Hre & Hn).
  rewrite Parse_not_whitespace by reflexivity.
  unfold Parse_branches. simpl (_ || _). cbv iota.
  unfold parse_num. rewrite (regex_search_at_0 _ _ Hre).
  unfold match_str. cbn [fst snd]. rewrite drop_0.
  destruct n as [|n]; [lia|]. cbn [take].
  by rewrite TryParseNum_plus_int, TryParseNum_plus_double.
Qed.

(** * Further properties: dictionaries, texts of the format, values *)

(** X9: a dictionary literal whose entries are a string literal, a colon and
    a text that [Parse] turns into a value, with a comma between each two,
    is parsed into the dictionary of these entries, with a count that ends
    just after the closing bracket; a key has the value of the first entry
    that gives it. *)
Theorem X9_dict_of_entries (ets : list (string_view * string_view))
    (kvs : list (string * JsonObject)) :
  Forall2 entry ets kvs →
  (∀ tail, Parse ("{"%char :: join_comma (entry_text <$> ets) ++ "}"%char :: tail)
             = Ok (JDict (dict_of kvs), length (join_comma (entry_text <$> ets)) + 2)) ∧
  (∀ k, dict_of kvs !! k = first_value k kvs).
Proof.
  intros H. split; [intros tail; by apply Parse_dict_entries|].
  intros k. unfold dict_of. by rewrite foldl_try_emplace_lookup, lookup_empty.
Qed.

Lemma X9_dict_of_entries_witness :
  Parse ("{"%char :: join_comma (entry_text <$> [(lit "'a'", lit "1"); (lit "'a'", lit "2")])
           ++ "}"%char :: lit " rest")
    = Ok (JDict (dict_of [("a"%string, JInt 1); ("a"%string, JInt 2)]),
          length (join_comma (entry_text <$> [(lit "'a'", lit "1"); (lit "'a'", lit "2")])) + 2).
Proof.
  assert (H : Forall2 entry [(lit "'a'", lit "1"); (lit "'a'", lit "2")]
                [("a"%string, JInt 1); ("a"%string, JInt 2)]).
  { constructor; [|constructor; [|constructor]]; split.
    - exists (lit "a"). repeat split; reflexivity.
    - apply (element_integer false (lit "1"));
        [split; [discriminate|repeat constructor]|vm_compute; split; discriminate].
    - exists (lit "a"). repeat split; reflexivity.
    - apply (element_integer false (lit "2"));
        [split; [discriminate|repeat constructor]|vm_compute; split; discriminate]. }
  exact (proj1 (X9_dict_of_entries _ _ H) (lit " rest")).
Defined.

(** X10: every text of the format described by [json_text] is parsed into
    the value it stands for, with its whole length as the count, alone and
    also before a comma or a closing bracket. *)
Theorem X10_json_text_parses (t : string_view) (v : JsonObject) :
  json_text t v →
  Parse t = Ok (v, length t) ∧
  ∀ rest, stops rest → Parse (t ++ rest) = Ok (v, length t).
Proof.
  intros H. destruct (json_text_parse t v H) as [[_ He] Hp]. by split.
Qed.

Lemma X10_json_text_parses_witness :
  Parse (lit " [-1,'s']") = Ok (JList [JInt (-1); JString "s"], 9).
Proof.
  assert (H : json_text
                ([SP] ++ "["%char
                   :: join_comma [minus_sign true ++ lit "1"; DQUOTE :: lit "s" ++ [DQUOTE]]
                   ++ ["]"%char])
                (JList [JInt (if true then - digits_value (lit "1") else digits_value (lit "1"))%Z;
                        JString (decode false (lit "s"))])).
  { apply json_text_space; [repeat constructor|]. apply json_text_list.
    constructor; [|constructor; [|constructor]].
    - apply json_text_int; [split; [discriminate|repeat constructor]
                           |vm_compute; split; discriminate].
    - apply json_text_string; reflexivity. }
  exact (proj1 (X10_json_text_parses _ _ H)).
Defined.

(** X11: white space between the last comma, or the opening bracket, of a
    list and its closing bracket is taken for an element and adds a Null to
    the list. *)
Theorem X11_blank_before_closing_bracket (w : string_view) (es : list string_view)
    (vs : JsonList) (tail : string_view) :
  w ≠ [] → Forall is_space w → Forall2 element es vs →
  Parse ("["%char :: join_comma (es ++ [w]) ++ "]"%char :: tail)
    = Ok (JList (vs ++ [JNull]), length (join_comma (es ++ [w])) + 2).
Proof.
  intros Hne Hw Hes. apply Parse_list_elements.
  apply Forall2_app; [done|]. constructor; [by apply element_blank|constructor].
Qed.

Lemma X11_blank_before_closing_bracket_witness :
  Parse ("["%char :: join_comma ([] ++ [[SP]]) ++ "]"%char :: [])
    = Ok (JList ([] ++ [JNull]), length (join_comma ([] ++ [[SP]])) + 2).
Proof.
  apply (X11_blank_before_closing_bracket [SP] [] [] []);
    [discriminate|repeat constructor|constructor].
Defined.

(** X12: whatever [Parse] returns holds no [bool] at any depth, and every
    [int] in it is within 32 bits. *)
Theorem X12_values_of_Parse (json : string_view) (v : JsonObject) (n : nat) :
  Parse json = Ok (v, n) → parsed_value v.
Proof. apply Parse_fuel_parsed_value. Qed.

Lemma X12_values_of_Parse_witness :
  parsed_value (JList [JDouble (Binary64 false 6553599999934464 (-16)); JNull]).
Proof.
  apply (X12_values_of_Parse (lit "[99999999999, x") _ 0). vm_compute. reflexivity.
Defined.

(** X13: the first character that is not white space decides the kind of
    the value: a list after an opening square bracket and a dictionary after
    an opening brace, also when the count is 0; a string, with a count that
    is not 0, after a double quote; an [int] or a [double] with a count that
    is not 0, or else (Null, 0), after a digit or a sign; (Null, 0) after
    anything else. *)
Theorem X13_kind_by_first_character (c : ascii) (rest : string_view)
    (v : JsonObject) (n : nat) :
  ¬ is_space c → Parse (c :: rest) = Ok (v, n) →
  (c = "["%char → JsonObject_is AList v = true) ∧
  (c = "{"%char → JsonObject_is ADict v = true) ∧
  (c = DQUOTE → JsonObject_is AString v = true ∧ 0 < n) ∧
  (is_digit c = true ∨ is_sign c = true →
   (0 < n ∧ (JsonObject_is AInt v = true ∨ JsonObject_is ADouble v = true)) ∨
   (n = 0 ∧ v = JNull)) ∧
  (is_digit c = false → is_sign c = false →
   c ≠ DQUOTE → c ≠ "["%char → c ≠ "{"%char → v = JNull ∧ n = 0).
Proof.
  intros Hc H.
  rewrite Parse_not_whitespace in H
    by (destruct (mem_chars _ c) eqn:E; [by apply is_space_mem in E|done]).
  unfold Parse_branches in H. split_and!.
  - intros ->. simpl in H. apply bind_Ok in H as ([i res] & _ & H). by injection H as <- _.
  - intros ->. simpl in H. apply bind_Ok in H as ([i res] & _ & H). by injection H as <- _.
  - intros ->. change (is_digit DQUOTE) with false in H. simpl in H.
    pose proof (string_loop_le Raw (drop 0 rest) 1 "") as Hle.
    destruct (string_loop Raw (drop 0 rest) 1 "") as [str i]. injection H as <- <-.
    simpl in Hle. split; [done|lia].
  - intros Hds.
    replace (is_digit c || (c =? "+")%char || (c =? "-")%char) with true in H.
    + by apply parse_num_kind in H.
    + destruct Hds as [->|Hs]; [done|].
      unfold is_sign in Hs. by rewrite <- Bool.orb_assoc, Hs, Bool.orb_true_r.
  - intros Hd Hs Hq Hl Hb. unfold is_sign in Hs.
    rewrite <- Bool.orb_assoc, Hd, Hs in H. simpl in H.
    apply Ascii.eqb_neq in Hq, Hl, Hb. rewrite Hq, Hl, Hb in H. by injection H as <- <-.
Qed.

Lemma X13_kind_by_first_character_witness :
  JsonObject_is AList (JList [JInt 1]) = true.
Proof.
  apply (proj1 (X13_kind_by_first_character "[" (lit "1,x]") (JList [JInt 1]) 0
                  ltac:(unfold is_space; intros H;
                        repeat (apply elem_of_cons in H as [H|H]; [discriminate|]);
                        by apply elem_of_nil in H)
                  ltac:(vm_compute; reflexivity))).
  reflexivity.
Defined.

(** X14: [get<T>] gives back what the object was made of and succeeds
    exactly when [is<T>] holds; for every object [is<T>] holds for one
    alternative and for no other, and [get] succeeds for that one alone. *)
Theorem X14_accessors (T : alternative) (obj : JsonObject) :
  (∀ x : payload T, JsonObject_get T (JsonObject_make T x) = Some x) ∧
  (∀ x : payload T, JsonObject_get T obj = Some x → obj = JsonObject_make T x) ∧
  (is_Some (JsonObject_get T obj) ↔ JsonObject_is T obj = true) ∧
  (∃ T0, JsonObject_is T0 obj = true ∧ is_Some (JsonObject_get T0 obj) ∧
         ∀ T', (JsonObject_is T' obj = true ∨ is_Some (JsonObject_get T' obj)) → T' = T0).
Proof.
  split_and!.
  - apply JsonObject_get_make.
  - apply JsonObject_make_get.
  - apply JsonObject_get_is.
  - exists (JsonObject_index obj).
    assert (His : JsonObject_is (JsonObject_index obj) obj = true)
      by (unfold JsonObject_is; by rewrite bool_decide_eq_true).
    split; [exact His|]. split; [by apply JsonObject_get_is|].
    intros T' [H|H%JsonObject_get_is];
      unfold JsonObject_is in H; by rewrite bool_decide_eq_true in H.
Qed.

Lemma X14_accessors_witness :
  JString "k" = JsonObject_make AString "k"%string.
Proof.
  apply (proj1 (proj2 (X14_accessors AString (JString "k")))). reflexivity.
Defined.

(** X15: [TryParseNum<int>] accepts exactly the texts made of an optional
    minus sign and one or more digits that denote an [int], and returns
    that [int]: no plus sign, no white space, nothing after the digits. *)
Theorem X15_TryParseNum_int (str : string_view) (v : Z) :
  TryParseNum Z str = Some v ↔
  ∃ (neg : bool) (ds : string_view),
    str = minus_sign neg ++ ds ∧ digits1 ds ∧
    v = (if neg then - digits_value ds else digits_value ds)%Z ∧
    (INT_MIN ≤ v ≤ INT_MAX)%Z.
Proof. apply TryParseNum_int_spec. Qed.

Lemma X15_TryParseNum_int_witness : TryParseNum Z (lit "-12") = Some (-12)%Z.
Proof.
  apply (proj2 (X15_TryParseNum_int (lit "-12") (-12))).
  exists true, (lit "12"). split; [reflexivity|].
  split; [split; [discriminate|repeat constructor]|].
  split; [reflexivity|vm_compute; split; discriminate].
Defined.

(** X16: after a sign that no digit follows, the numeral is looked for
    further on: when digits that denote an [int] come after some characters
    that are neither digits nor signs, [Parse] returns that [int], and the
    count is the number of the digits, not the position where they end. *)
Theorem X16_sign_then_later_digits (c : ascii) (junk ds rest : string_view) :
  is_sign c = true → junk ≠ [] →
  Forall (λ c, is_digit c = false ∧ is_sign c = false) junk →
  digits1 ds → numeral_stop rest →
  (INT_MIN ≤ digits_value ds ≤ INT_MAX)%Z →
  regex_search (c :: junk ++ ds ++ rest) = Some (1 + length junk, length ds) ∧
  Parse (c :: junk ++ ds ++ rest) = Ok (JInt (digits_value ds), length ds).
Proof. apply Parse_sign_then_junk. Qed.

Lemma X16_sign_then_later_digits_witness :
  regex_search ("-"%char :: lit "ab" ++ lit "17" ++ lit "]")
    = Some (1 + length (lit "ab"), length (lit "17")) ∧
  Parse ("-"%char :: lit "ab" ++ lit "17" ++ lit "]")
    = Ok (JInt (digits_value (lit "17")), length (lit "17")).
Proof.
  apply (X16_sign_then_later_digits "-" (lit "ab") (lit "17") (lit "]")).
  - reflexivity.
  - discriminate.
  - repeat constructor.
  - split; [discriminate|repeat constructor].
  - repeat split; discriminate.
  - vm_compute. split; discriminate.
Defined.

(** X17: a text that begins with a plus sign and a digit enters the numeral
    branch and is matched by the pattern, sign included, whatever the shape
    of the numeral; [std::from_chars] takes no plus sign, so both
    [TryParseNum] fail and the result is (Null, 0). *)
Theorem X17_leading_plus_rejected (d : ascii) (rest : string_view) :
  is_digit d = true →
  (∃ n, regex_search ("+"%char :: d :: rest) = Some (0, n) ∧ 2 ≤ n) ∧
  Parse ("+"%char :: d :: rest) = Ok (JNull, 0).
Proof.
  intros Hd. split; [|by apply Parse_plus_digit].
  destruct (sign_digit_head_match "+" d rest eq_refl Hd) as (n & Hre & Hn).
  exists n. split; [by apply regex_search_at_0|done].
Qed.

Lemma X17_leading_plus_rejected_witness :
  (∃ n, regex_search (lit "+1.5e3,") = Some (0, n) ∧ 2 ≤ n) ∧
  Parse (lit "+1.5e3,") = Ok (JNull, 0).
Proof. apply (X17_leading_plus_rejected "1" (lit ".5e3,")). reflexivity. Defined.
